(** * Order-flow-imbalance pipeline: shallow embedding and verification

    The pipeline of [scripts/] works on one pandas [DataFrame]: it is loaded by
    [data_preprocessing.load_and_preprocess_data], extended with the per-level
    columns [OFI_level_<i>] by [ofi_calculation.compute_ofi_for_btc], with
    [OFI_aggregated] by [ofi_calculation.integrate_multi_level_ofi] and with
    [future_ret_<h>] by [cross_impact_analysis.compute_short_term_returns].

    A frame is a row index, a finite map from column names to columns, and
    the names of the columns of dtype datetime64 (the others are float64).
    Cells are float64 values read exactly: a finite value is a rational, and
    the special values NaN (pandas' missing marker; in a datetime64 column it
    stands for NaT and a finite value for a count from the epoch) and the two
    infinities are kept, with the IEEE 754 rules for them.  Rounding, overflow
    and the sign of zero are left out. *)

From Stdlib Require Import QArith Qcanon.
From stdpp Require Import base numbers list strings gmap fin_maps pretty sorting.

Set Default Proof Using "Type".
Open Scope Z_scope.

(** ** Cells *)

Module Cell.

Inductive cell : Type :=
| NaN
| Inf (neg : bool)
| Fin (q : Qc).

#[global] Instance cell_eq_dec : EqDecision cell.
Proof. solve_decision. Defined.

#[global] Instance cell_inhabited : Inhabited cell := populate NaN.

(** [pd.isna] on a scalar. *)
Definition isna (c : cell) : bool :=
  match c with NaN => true | _ => false end.

Definition zero : cell := Fin 0%Qc.
Definition one : cell := Fin 1%Qc.
Definition two : cell := Fin (Q2Qc 2).

Definition of_Z (z : Z) : cell := Fin (Q2Qc (inject_Z z)).

Definition neg (c : cell) : cell :=
  match c with
  | NaN => NaN
  | Inf b => Inf (negb b)
  | Fin q => Fin (- q)%Qc
  end.

(** [x + y]: the infinities of opposite sign have no sum. *)
Definition add (x y : cell) : cell :=
  match x, y with
  | NaN, _ | _, NaN => NaN
  | Inf a, Inf b => if bool_decide (a = b) then Inf a else NaN
  | Inf a, Fin _ => Inf a
  | Fin _, Inf b => Inf b
  | Fin p, Fin q => Fin (p + q)%Qc
  end.

Definition sub (x y : cell) : cell := add x (neg y).

Definition is_neg (q : Qc) : bool := bool_decide (q < 0)%Qc.
Definition is_zero (q : Qc) : bool := bool_decide (q = 0%Qc).

(** [x * y]: zero times an infinity is NaN. *)
Definition mul (x y : cell) : cell :=
  match x, y with
  | NaN, _ | _, NaN => NaN
  | Inf a, Inf b => Inf (xorb a b)
  | Inf a, Fin q => if is_zero q then NaN else Inf (xorb a (is_neg q))
  | Fin p, Inf b => if is_zero p then NaN else Inf (xorb (is_neg p) b)
  | Fin p, Fin q => Fin (p * q)%Qc
  end.

(** [x / y]: 0/0 and inf/inf are NaN, a non-zero value over zero is an
    infinity (numpy warns and goes on, it does not raise). *)
Definition div (x y : cell) : cell :=
  match x, y with
  | NaN, _ | _, NaN => NaN
  | Inf _, Inf _ => NaN
  | Inf a, Fin q => Inf (xorb a (is_neg q))
  | Fin _, Inf _ => zero
  | Fin p, Fin q =>
      if is_zero q then (if is_zero p then NaN else Inf (is_neg p))
      else Fin (p / q)%Qc
  end.

(** The order [sort_values] uses on the keys that are not missing. *)
Definition le (x y : cell) : Prop :=
  match x, y with
  | NaN, _ | _, NaN => False
  | Inf a, Inf b => a = true ∨ b = false
  | Inf a, Fin _ => a = true
  | Fin _, Inf b => b = false
  | Fin p, Fin q => (p <= q)%Qc
  end.

#[global] Instance le_dec x y : Decision (le x y).
Proof. destruct x, y; simpl; apply _. Defined.

Definition lt (x y : cell) : Prop := le x y ∧ ¬ le y x.

Definition finite (c : cell) : Prop :=
  match c with Fin _ => True | _ => False end.

#[global] Instance finite_dec c : Decision (finite c).
Proof. destruct c; simpl; apply _. Defined.

End Cell.
Export Cell.

Declare Scope cell_scope.
Delimit Scope cell_scope with cell.
Bind Scope cell_scope with cell.
Infix "+" := Cell.add : cell_scope.
Infix "-" := Cell.sub : cell_scope.
Infix "*" := Cell.mul : cell_scope.
Infix "/" := Cell.div : cell_scope.

(** ** Exceptions and the two ways the scripts use a frame

    A frame handed to a function is changed in place ([inplace=True], item
    assignment) and the same object is returned: such a function is a
    computation [df_op] over the frame as state, which keeps the state it had
    reached when it raises. *)

Inductive exn : Type :=
| KeyError (key : string)
| ValueError (msg : string)
| TypeError.

#[global] Instance exn_eq_dec : EqDecision exn.
Proof. solve_decision. Defined.

Inductive result (A : Type) : Type :=
| Ok (a : A)
| Raise (e : exn).
Arguments Ok {A} a.
Arguments Raise {A} e.

#[global] Instance result_eq_dec `{EqDecision A} : EqDecision (result A).
Proof. solve_decision. Defined.

Definition rbind {A B} (r : result A) (k : A → result B) : result B :=
  match r with
  | Ok a => k a
  | Raise e => Raise e
  end.

Notation "'let+' x ':=' r 'in' k" := (rbind r (fun x => k))
  (at level 10, x name, r at level 100, k at level 200).

Fixpoint mapM {A B} (f : A → result B) (l : list A) : result (list B) :=
  match l with
  | [] => Ok []
  | a :: l' => let+ b := f a in let+ bs := mapM f l' in Ok (b :: bs)
  end.

(** ** Frames *)

Record DataFrame : Type := mkDF {
  index : list Z;
  columns : gmap string (list cell);
  datetimes : gset string
}.

#[global] Instance DataFrame_eq_dec : EqDecision DataFrame.
Proof. solve_decision. Defined.

Definition nrows (df : DataFrame) : nat := length (index df).

(** Every column has one cell per row. *)
Definition wf (df : DataFrame) : Prop :=
  map_Forall (λ _ c, length c = nrows df) (columns df).

Definition df_op (A : Type) : Type := DataFrame → result A * DataFrame.

Definition ret {A} (a : A) : df_op A := λ df, (Ok a, df).
Definition raise {A} (e : exn) : df_op A := λ df, (Raise e, df).
Definition bind {A B} (m : df_op A) (k : A → df_op B) : df_op B :=
  λ df, match m df with
        | (Ok a, df') => k a df'
        | (Raise e, df') => (Raise e, df')
        end.
Definition modify (f : DataFrame → DataFrame) : df_op () := λ df, (Ok (), f df).

Notation "'let*' x ':=' m 'in' k" := (bind m (fun x => k))
  (at level 10, x name, m at level 100, k at level 200).
Notation "m ';;' k" := (bind m (fun _ => k))
  (at level 100, k at level 200, right associativity).

(** *** Series *)

Definition at_row (s : list cell) (p : nat) : cell := nth p s NaN.

(** [s.shift(periods)]: the values move down by [periods] rows (up when it is
    negative), the rows left empty hold NaN, the length stays. *)
Definition shift (periods : Z) (s : list cell) : list cell :=
  let n := length s in
  if bool_decide (0 ≤ periods) then
    let k := Nat.min (Z.to_nat periods) n in
    replicate k NaN ++ take (n - k) s
  else
    let k := Nat.min (Z.to_nat (- periods)) n in
    drop k s ++ replicate k NaN.

Definition fill (v : cell) (c : cell) : cell := if isna c then v else c.

(** *** Frame primitives *)

(** [df[name]] *)
Definition getitem (name : string) : df_op (list cell) :=
  λ df, match columns df !! name with
        | Some c => (Ok c, df)
        | None => (Raise (KeyError name), df)
        end.

(** [df[[n1, ..., nk]]]; the [KeyError] bears the first name that is no
    column (pandas lists them all in its message). *)
Fixpoint getitems (names : list string) : df_op (list (list cell)) :=
  match names with
  | [] => ret []
  | n :: ns =>
      let* c := getitem n in
      let* cs := getitems ns in
      ret (c :: cs)
  end.

(** [len(df.index)] *)
Definition len : df_op nat := λ df, (Ok (nrows df), df).

(** [df[name] = s] for a float64 series [s], as the arithmetic gives: the
    column is float64 from then on. *)
Definition setitem (name : string) (s : list cell) : df_op () :=
  modify (λ df, mkDF (index df) (<[name := s]> (columns df)) (datetimes df ∖ {[name]})).

(** [df[name] = s] for a datetime64 series [s], as [pd.to_datetime] gives. *)
Definition setitem_datetime (name : string) (s : list cell) : df_op () :=
  modify (λ df, mkDF (index df) (<[name := s]> (columns df)) ({[name]} ∪ datetimes df)).

(** The rows at the positions [ps], in that order. *)
Definition take_rows (ps : list nat) (df : DataFrame) : DataFrame :=
  mkDF ((λ p, nth p (index df) 0) <$> ps)
       ((λ c : list cell, at_row c <$> ps) <$> columns df)
       (datetimes df).

(** [df.reset_index(drop=True, inplace=True)] *)
Definition reset_index (df : DataFrame) : DataFrame :=
  mkDF (Z.of_nat <$> seq 0 (nrows df)) (columns df) (datetimes df).

Definition row_complete (df : DataFrame) (p : nat) : Prop :=
  map_Forall (λ _ c, isna (at_row c p) = false) (columns df).

#[global] Instance row_complete_dec df p : Decision (row_complete df p).
Proof. unfold row_complete. apply _. Defined.

(** [df.dropna(inplace=True)]: a row with a missing cell goes, the others
    keep their labels. *)
Definition dropna (df : DataFrame) : DataFrame :=
  take_rows (filter (row_complete df) (seq 0 (nrows df))) df.

(** The frame with [v] in place of its missing cells. *)
Definition filled (v : cell) (df : DataFrame) : DataFrame :=
  mkDF (index df) ((λ c : list cell, fill v <$> c) <$> columns df) (datetimes df).

(** A number is no value for a datetime64 column: the frame can be filled
    with one when no such column has a cell to fill. *)
Definition fillable (df : DataFrame) : Prop :=
  map_Forall (λ name c, name ∈ datetimes df → Forall (λ x, isna x = false) c)
             (columns df).

#[global] Instance fillable_dec df : Decision (fillable df).
Proof. unfold fillable. apply _. Defined.

(** [df.fillna(v, inplace=True)] for a number [v]: pandas raises [TypeError]
    at a datetime64 column with a cell to fill.  The frame is given as it was
    then; which of the other columns pandas has filled by that time is not
    followed. *)
Definition fillna (v : cell) : df_op () :=
  λ df, if decide (fillable df) then (Ok (), filled v df) else (Raise TypeError, df).

(** *** Arithmetic on series of one frame (their labels agree) *)

Definition sadd (a b : list cell) : list cell := zip_with Cell.add a b.
Definition ssub (a b : list cell) : list cell := zip_with Cell.sub a b.
Definition smul (a b : list cell) : list cell := zip_with Cell.mul a b.
Definition sdiv (a b : list cell) : list cell := zip_with Cell.div a b.
(** a series and a scalar *)
Definition sdivc (a : list cell) (c : cell) : list cell := (λ x, x / c)%cell <$> a.
Definition ssubc (a : list cell) (c : cell) : list cell := (λ x, x - c)%cell <$> a.

(** *** Sorting

    [sort_values] takes the rows in the order an argsort of the key column
    gives.  The scripts leave [kind] at its default ['quicksort'], which
    pandas documents as not stable: the argsort is known by its contract
    only, the keys come out ascending with the missing ones last. *)

Definition key_le (x y : cell) : Prop := isna y = true ∨ Cell.le x y.

#[global] Instance key_le_dec x y : Decision (key_le x y).
Proof. unfold key_le. apply _. Defined.

Record argsort_spec (argsort : list cell → list nat) : Prop := {
  argsort_perm : ∀ ks, argsort ks ≡ₚ seq 0 (length ks);
  argsort_sorted : ∀ ks, Sorted key_le (at_row ks <$> argsort ks)
}.

(** Insertion of a position into a list of positions: [p] goes before the
    first [q] with [before p q]. *)
Fixpoint insert_pos (before : nat → nat → bool) (p : nat) (ps : list nat) : list nat :=
  match ps with
  | [] => [p]
  | q :: qs => if before p q then p :: q :: qs else q :: insert_pos before p qs
  end.

Definition argsort_by (before : list cell → nat → nat → bool) (ks : list cell) : list nat :=
  foldr (insert_pos (before ks)) [] (seq 0 (length ks)).

(** Two argsorts that meet the contract: the first keeps rows of equal key in
    their order (as [kind='stable'] would), the second reverses them. *)
Definition key_before (ks : list cell) (p q : nat) : bool :=
  bool_decide (key_le (at_row ks p) (at_row ks q)).

Definition stable_argsort : list cell → list nat := argsort_by key_before.

Definition reversing_argsort : list cell → list nat :=
  argsort_by (λ ks p q, bool_decide (¬ key_le (at_row ks q) (at_row ks p))).

Section Scripts.

Variable argsort : list cell → list nat.

(** [df.sort_values(by, inplace=True)] *)
Definition sort_values (by_ : string) : df_op () :=
  let* keys := getitem by_ in
  modify (take_rows (argsort keys)).

(** ** ofi_calculation.py *)

Definition reconstruct_price (level : nat) (side : string) : df_op (list cell) :=
  let col_name := side +:+ "s_distance_" +:+ pretty level in
  let* mid := getitem "midpoint" in
  let* dist := getitem col_name in
  ret (sadd mid dist).

Definition reconstruct_size (level : nat) (side : string) : df_op (list cell) :=
  let col_name := side +:+ "s_notional_" +:+ pretty level in
  getitem col_name.

Definition ofi_col (level : nat) : string := "OFI_level_" +:+ pretty level.

(** [range(n)] *)
Definition range (n : Z) : list nat := seq 0 (Z.to_nat n).

(** The body of the loop over the levels. *)
Definition ofi_level (level : nat) : df_op () :=
  let* bid_price := reconstruct_price level "bid" in
  let* ask_price := reconstruct_price level "ask" in
  let* bid_size := reconstruct_size level "bid" in
  let* ask_size := reconstruct_size level "ask" in
  let bid_price_prev := shift 1 bid_price in
  let ask_price_prev := shift 1 ask_price in
  let bid_size_prev := shift 1 bid_size in
  let ask_size_prev := shift 1 ask_size in
  setitem (ofi_col level)
    (ssub (sdivc (smul (ssub bid_price bid_price_prev) (sadd bid_size bid_size_prev)) two)
          (sdivc (smul (ssub ask_price ask_price_prev) (sadd ask_size ask_size_prev)) two)).

Fixpoint for_each {A} (body : A → df_op ()) (l : list A) : df_op () :=
  match l with
  | [] => ret ()
  | a :: l' => body a;; for_each body l'
  end.

Definition compute_ofi_for_btc (max_levels : Z) : df_op () :=
  sort_values "system_time";;
  modify reset_index;;
  for_each ofi_level (range max_levels);;
  fillna zero.

(** [values.sum()] of one row after its missing cells are set to 0
    ([skipna=True]). *)
Definition nansum (xs : list cell) : cell :=
  foldl Cell.add zero (fill zero <$> xs).

(** [nanmean]: that sum over the number of cells that are not missing. *)
Definition nanmean (xs : list cell) : cell :=
  (nansum xs / of_Z (Z.of_nat (length (filter (λ x, isna x = false) xs))))%cell.

Definition row_values (cs : list (list cell)) (p : nat) : list cell :=
  (λ c, at_row c p) <$> cs.

(** [df[cols].sum(axis=1)] and [df[cols].mean(axis=1)] *)
Definition sum_axis1 (n : nat) (cs : list (list cell)) : list cell :=
  (λ p, nansum (row_values cs p)) <$> seq 0 n.
Definition mean_axis1 (n : nat) (cs : list (list cell)) : list cell :=
  (λ p, nanmean (row_values cs p)) <$> seq 0 n.

(** [PCA(n_components=1).fit_transform], of scikit-learn: the one column it
    returns, or the exception it raises. *)
Variable pca_fit_transform : list (list cell) → result (list cell).

Definition integrate_multi_level_ofi (max_levels : Z) (method : string) : df_op () :=
  let ofi_cols := ofi_col <$> range max_levels in
  let* ofi_matrix := getitems ofi_cols in
  if bool_decide (method = "PCA") then
    match pca_fit_transform ofi_matrix with
    | Ok ofi_agg => setitem "OFI_aggregated" ofi_agg
    | Raise e => raise e
    end
  else if bool_decide (method = "sum") then
    let* cs := getitems ofi_cols in
    let* n := len in
    setitem "OFI_aggregated" (sum_axis1 n cs)
  else if bool_decide (method = "avg") then
    let* cs := getitems ofi_cols in
    let* n := len in
    setitem "OFI_aggregated" (mean_axis1 n cs)
  else
    raise (ValueError "Unknown integration method. Choose from ['PCA','sum','avg'].").

(** ** cross_impact_analysis.py *)

Definition ret_col (horizon : Z) : string := "future_ret_" +:+ pretty horizon.

Definition compute_short_term_returns (horizon : Z) : df_op () :=
  let* mid_a := getitem "midpoint" in
  let* mid_b := getitem "midpoint" in
  setitem (ret_col horizon) (ssubc (sdiv (shift (- horizon) mid_a) mid_b) one);;
  modify dropna.

(** ** data_preprocessing.py

    [pd.read_csv] gives the text of the [system_time] column (when the file
    has one) and the frame of the other columns; [pd.to_datetime] parses one
    entry to a timestamp (a count from the epoch), to NaT, or raises. *)

Record Csv : Type := mkCsv {
  csv_system_time : option (list string);
  csv_frame : DataFrame
}.

Variable read_csv : string → result Csv.
Variable to_datetime : string → result cell.

Definition run {A} (m : df_op A) (df : DataFrame) : result DataFrame :=
  match m df with
  | (Ok _, df') => Ok df'
  | (Raise e, _) => Raise e
  end.

Definition load_and_preprocess_data (filepath : string) : result DataFrame :=
  let+ csv := read_csv filepath in
  let+ text := match csv_system_time csv with
               | Some t => Ok t
               | None => Raise (KeyError "system_time")
               end in
  let+ times := mapM to_datetime text in
  run (setitem_datetime "system_time" times;;
       sort_values "system_time";;
       modify reset_index;;
       modify dropna;;
       modify reset_index) (csv_frame csv).

(** ** main.py, up to the regression and the plot (scikit-learn, seaborn) *)

Definition main : result DataFrame :=
  let+ df := load_and_preprocess_data "data/BTC_1min.csv" in
  run (compute_ofi_for_btc 5;;
       integrate_multi_level_ofi 5 "sum";;
       compute_short_term_returns 1) df.

End Scripts.

(** ** Vocabulary of the statements *)

(** The cell of column [name] at row [p]; [None] when there is no such column
    or no such row. *)
Definition loc (df : DataFrame) (name : string) (p : nat) : option cell :=
  c ← columns df !! name; c !! p.

(** The same with NaN for what is not there, as the formulas read it. *)
Definition val (df : DataFrame) (name : string) (p : nat) : cell :=
  default NaN (loc df name p).

Definition price (df : DataFrame) (side : string) (i t : nat) : cell :=
  (val df "midpoint" t + val df (side +:+ "s_distance_" +:+ pretty i) t)%cell.

Definition size (df : DataFrame) (side : string) (i t : nat) : cell :=
  val df (side +:+ "s_notional_" +:+ pretty i) t.

(** The closed form of the order-flow imbalance of level [i] at row [t],
    over the rows [t] and [t - 1] of [df]. *)
Definition ofi_formula (df : DataFrame) (i t : nat) : cell :=
  ((price df "bid" i t - price df "bid" i (t - 1))
     * (size df "bid" i t + size df "bid" i (t - 1)) / two
   - (price df "ask" i t - price df "ask" i (t - 1))
     * (size df "ask" i t + size df "ask" i (t - 1)) / two)%cell.

(** Sum and mean of a list of cells, nothing skipped. *)
Definition total (xs : list cell) : cell := foldl Cell.add zero xs.
Definition mean (xs : list cell) : cell :=
  (total xs / of_Z (Z.of_nat (length xs)))%cell.

(** The column [name], empty when there is none. *)
Definition column_or_empty (df : DataFrame) (name : string) : list cell :=
  default [] (columns df !! name).

(** The exception of the last branch of [integrate_multi_level_ofi]. *)
Definition unknown_method : exn :=
  ValueError "Unknown integration method. Choose from ['PCA','sum','avg'].".

(** The series [compute_short_term_returns] assigns. *)
Definition ret_vec (horizon : Z) (mid : list cell) : list cell :=
  ssubc (sdiv (shift (- horizon) mid) mid) one.

(** The frame it drops the incomplete rows of. *)
Definition with_returns (horizon : Z) (mid : list cell) (df : DataFrame) : DataFrame :=
  mkDF (index df) (<[ret_col horizon := ret_vec horizon mid]> (columns df))
       (datetimes df ∖ {[ret_col horizon]}).

(** The frame of [load_and_preprocess_data] once the parsed timestamps are
    assigned. *)
Definition parsed (csv : Csv) (times : list cell) : DataFrame :=
  mkDF (index (csv_frame csv)) (<["system_time" := times]> (columns (csv_frame csv)))
       ({["system_time"]} ∪ datetimes (csv_frame csv)).

(** [out] holds the rows of [df] at the positions [ps], in that order, under
    the labels 0, 1, ... *)
Definition rows_of (df : DataFrame) (ps : list nat) (out : DataFrame) : Prop :=
  out = reset_index (take_rows ps df).

(** Rows of equal key stand in the order they had in the input: [ps] gives
    the input position of every row. *)
Definition ties_in_input_order (keys : list cell) (ps : list nat) : Prop :=
  ∀ (a b : nat) pa pb,
    (a < b)%nat → ps !! a = Some pa → ps !! b = Some pb →
    at_row keys pa = at_row keys pb → (pa < pb)%nat.

(** The order of a stable sort: by key, and by position among equal keys. *)
Definition by_key_then_position (keys : list cell) (p q : nat) : Prop :=
  key_le (at_row keys p) (at_row keys q) ∧
  (key_le (at_row keys q) (at_row keys p) → (p < q)%nat).

(** The cells that are not missing. *)
Definition present (xs : list cell) : list cell := filter (λ x, isna x = false) xs.

(** The per-level values of row [t]. *)
Definition ofi_row (df : DataFrame) (max_levels : Z) (t : nat) : list cell :=
  (λ i, val df (ofi_col i) t) <$> range max_levels.

(** No cell of the frame is missing. *)
Definition complete (df : DataFrame) : Prop :=
  map_Forall (λ _ c, Forall (λ x, isna x = false) c) (columns df).

(** [sort_values] leaves the frame as it is. *)
Definition in_sort_order (argsort : list cell → list nat) (by_ : string)
    (df : DataFrame) : Prop :=
  match columns df !! by_ with
  | Some keys => argsort keys = seq 0 (length keys)
  | None => False
  end.

#[global] Instance in_sort_order_dec argsort by_ df :
  Decision (in_sort_order argsort by_ df).
Proof. unfold in_sort_order. destruct (columns df !! by_); apply _. Defined.

(** The rows are sorted by [by_]: its keys go up, the missing ones last. *)
Definition sorted_by (by_ : string) (df : DataFrame) : Prop :=
  match columns df !! by_ with
  | Some keys => Sorted key_le keys
  | None => False
  end.

#[global] Instance sorted_by_dec by_ df : Decision (sorted_by by_ df).
Proof. unfold sorted_by. destruct (columns df !! by_); apply _. Defined.

(** The same with no two rows of one key, and none missing. *)
Definition increasing_by (by_ : string) (df : DataFrame) : Prop :=
  match columns df !! by_ with
  | Some keys => Sorted Cell.lt keys
  | None => False
  end.

#[global] Instance increasing_by_dec by_ df : Decision (increasing_by by_ df).
Proof. unfold increasing_by, Cell.lt. destruct (columns df !! by_); apply _. Defined.

(** The series [ofi_level] assigns, from the five columns it reads. *)
Definition ofi_vec (mid bd ad bn an : list cell) : list cell :=
  let bid_price := sadd mid bd in
  let ask_price := sadd mid ad in
  ssub (sdivc (smul (ssub bid_price (shift 1 bid_price)) (sadd bn (shift 1 bn))) two)
       (sdivc (smul (ssub ask_price (shift 1 ask_price)) (sadd an (shift 1 an))) two).

Definition ofi_of (df : DataFrame) (level : nat) : option (list cell) :=
  mid ← columns df !! "midpoint";
  bd ← columns df !! ("bid" +:+ "s_distance_" +:+ pretty level);
  ad ← columns df !! ("ask" +:+ "s_distance_" +:+ pretty level);
  bn ← columns df !! ("bid" +:+ "s_notional_" +:+ pretty level);
  an ← columns df !! ("ask" +:+ "s_notional_" +:+ pretty level);
  Some (ofi_vec mid bd ad bn an).

(** The frame as [compute_ofi_for_btc] orders it before the loop. *)
Definition engine_order (argsort : list cell → list nat) (df : DataFrame) : DataFrame :=
  match columns df !! "system_time" with
  | Some keys => reset_index (take_rows (argsort keys) df)
  | None => df
  end.

(** The datetime64 columns that the loop over [max_levels] levels does not
    overwrite have no missing cell. *)
Definition timestamps_complete (max_levels : Z) (df : DataFrame) : Prop :=
  map_Forall (λ name c, name ∈ datetimes df → name ∉ ofi_col <$> range max_levels →
                        Forall (λ x, isna x = false) c)
             (columns df).

#[global] Instance timestamps_complete_dec L df : Decision (timestamps_complete L df).
Proof. unfold timestamps_complete. apply _. Defined.

(** ** Frames used as examples *)

Definition frame (n : nat) (cols : list (string * list cell)) : DataFrame :=
  mkDF (Z.of_nat <$> seq 0 n) (list_to_map cols) ∅.

Definition ints (zs : list Z) : list cell := of_Z <$> zs.

(** The frame with its [system_time] of dtype datetime64, as [pd.to_datetime]
    leaves it. *)
Definition stamped (df : DataFrame) : DataFrame :=
  mkDF (index df) (columns df) ({["system_time"]} ∪ datetimes df).

(** The five rows of the end-to-end example: distances and sizes are zero but
    for a jump of the bid size of level 0 at row 2. *)
Definition book : DataFrame :=
  frame 5 [("system_time", ints [1; 2; 3; 4; 5]);
           ("midpoint", ints [100; 101; 99; 102; 103]);
           ("bids_distance_0", ints [0; 0; 0; 0; 0]);
           ("asks_distance_0", ints [0; 0; 0; 0; 0]);
           ("bids_notional_0", ints [0; 0; 7; 0; 0]);
           ("asks_notional_0", ints [0; 0; 0; 0; 0])].


(** Levels 0 and 1 of one row, the first one missing. *)
Definition levels_gap : DataFrame :=
  frame 1 [("OFI_level_0", [NaN]); ("OFI_level_1", ints [3])].

(** A stand-in for scikit-learn where the PCA branch is not taken. *)
Definition pca_unavailable : list (list cell) → result (list cell) :=
  λ _, Raise (ValueError "PCA is not available").

(** Two levels over two rows, nothing missing. *)
Definition levels : DataFrame :=
  frame 2 [("OFI_level_0", ints [1; 2]); ("OFI_level_1", ints [3; 5])].

(** [book] with a column [OFI_level_0] left by some earlier computation. *)
Definition book_stale : DataFrame :=
  mkDF (index book) (<["OFI_level_0" := ints [9; 9; 9; 9; 9]]> (columns book)) ∅.

(** [levels] with a column [OFI_aggregated] already there. *)
Definition levels_stale : DataFrame :=
  mkDF (index levels) (<["OFI_aggregated" := ints [0; 0]]> (columns levels)) ∅.

(** Midpoints at zero. *)
Definition flat : DataFrame := frame 3 [("midpoint", ints [0; 0; 5])].

(** A column that the return calculator does not read, with a gap. *)
Definition noted : DataFrame :=
  frame 3 [("midpoint", ints [1; 2; 4]); ("note", [NaN; of_Z 1; of_Z 1])].

(** A stand-in for [pd.to_datetime] on three minutes of one day, in seconds
    from the epoch. *)
Definition clock (s : string) : result cell :=
  if bool_decide (s = "") then Ok NaN
  else if bool_decide (s = "2021-04-07 11:33:00") then Ok (of_Z 1617795180)
  else if bool_decide (s = "2021-04-07 11:34:00") then Ok (of_Z 1617795240)
  else if bool_decide (s = "2021-04-07 11:35:00") then Ok (of_Z 1617795300)
  else Raise (ValueError "Unknown datetime string format").

(** A file of four rows out of order, one without a timestamp and one without
    a midpoint. *)
Definition csv_small : Csv :=
  mkCsv (Some ["2021-04-07 11:34:00"; ""; "2021-04-07 11:33:00"; "2021-04-07 11:35:00"])
        (frame 4 [("midpoint", [of_Z 101; of_Z 102; of_Z 100; NaN])]).

(** A file of seventeen rows of one timestamp, numbered by their midpoint. *)
Definition csv_ties : Csv :=
  mkCsv (Some (replicate 17 "2021-04-07 11:33:00"))
        (frame 17 [("midpoint", ints (seqZ 0 17))]).

(** Seventeen rows of one timestamp with a level-0 book, numbered by their
    midpoint: sorted by timestamp, and all ties. *)
Definition ties : DataFrame :=
  frame 17 [("system_time", replicate 17 (of_Z 1617795180));
            ("midpoint", ints (seqZ 0 17));
            ("bids_distance_0", replicate 17 zero);
            ("asks_distance_0", replicate 17 zero);
            ("bids_notional_0", replicate 17 two);
            ("asks_notional_0", replicate 17 zero)].

(** The columns one round of the loop reads, in the order it reads them. *)
Definition level_inputs (level : nat) : list string :=
  ["midpoint"; "bid" +:+ "s_distance_" +:+ pretty level;
   "midpoint"; "ask" +:+ "s_distance_" +:+ pretty level;
   "bid" +:+ "s_notional_" +:+ pretty level;
   "ask" +:+ "s_notional_" +:+ pretty level].

(** The first of [names] that is no column of [df]. *)
Definition first_missing (df : DataFrame) (names : list string) : option string :=
  head (filter (λ n, columns df !! n = None) names).

(** [book] with a complete level 0 and a level 1 without ask sizes. *)
Definition book_level1_short : DataFrame :=
  mkDF (index book)
       (<["bids_distance_1" := ints [0; 0; 0; 0; 0]]>
          (<["asks_distance_1" := ints [0; 0; 0; 0; 0]]>
             (<["bids_notional_1" := ints [1; 1; 1; 1; 1]]> (columns book)))) ∅.

(** A file whose second timestamp does not parse. *)
Definition csv_bad : Csv :=
  mkCsv (Some ["2021-04-07 11:33:00"; "yesterday"; "2021-04-07 11:35:00"])
        (frame 3 [("midpoint", ints [100; 101; 99])]).

(** A file with no [system_time] column. *)
Definition csv_untimed : Csv :=
  mkCsv None (frame 3 [("midpoint", ints [100; 101; 99])]).


(** [book] under the row labels 10 .. 14. *)
Definition book_late : DataFrame :=
  mkDF [10; 11; 12; 13; 14] (columns book) (datetimes book).

(** The columns of one level of a three-row book. *)
Definition level_of_three (i : nat) : list (string * list cell) :=
  [("bids_distance_" +:+ pretty i, ints [-1; -1; -2]);
   ("asks_distance_" +:+ pretty i, ints [1; 2; 1]);
   ("bids_notional_" +:+ pretty i, ints [5; 7; 7]);
   ("asks_notional_" +:+ pretty i, ints [4; 4; 6])].

(** A file of three rows, out of order, with the five levels [main] uses. *)
Definition csv_five : Csv :=
  mkCsv (Some ["2021-04-07 11:34:00"; "2021-04-07 11:33:00"; "2021-04-07 11:35:00"])
        (frame 3 (("midpoint", ints [101; 100; 99])
                  :: mbind level_of_three (seq 0 5))).

(** * Properties *)

(** ** Cells and series *)

Lemma sub_nan_r x : (x - NaN)%cell = NaN.
Proof. by destruct x. Qed.

Lemma mul_nan_l x : (NaN * x)%cell = NaN.
Proof. done. Qed.

Lemma isna_fill_zero c : isna (fill zero c) = false.
Proof. by destruct c. Qed.

Lemma fill_notna v c : isna c = false → fill v c = c.
Proof. unfold fill. by intros ->. Qed.

Lemma at_row_lookup (s : list cell) p : at_row s p = default NaN (s !! p).
Proof. unfold at_row. apply nth_lookup. Qed.

Lemma at_row_seq (s : list cell) : at_row s <$> seq 0 (length s) = s.
Proof.
  apply list_eq. intros p. rewrite list_lookup_fmap.
  destruct (decide (p < length s)%nat) as [Hp|Hp].
  - rewrite lookup_seq_lt by done. simpl. rewrite at_row_lookup.
    destruct (lookup_lt_is_Some_2 s p Hp) as [x ->]. done.
  - rewrite lookup_seq_ge by lia. rewrite lookup_ge_None_2 by lia. done.
Qed.

Lemma length_shift k (s : list cell) : length (shift k s) = length s.
Proof.
  unfold shift. case_bool_decide;
    rewrite length_app, length_replicate, ?length_take, ?length_drop; lia.
Qed.

Lemma shift_1_first (s : list cell) : s ≠ [] → shift 1 s !! 0%nat = Some NaN.
Proof.
  intros Hs. unfold shift. rewrite bool_decide_true by lia.
  destruct s as [|x s]; [done|]. simpl length.
  replace (Nat.min (Z.to_nat 1) (S (length s))) with 1%nat by lia. done.
Qed.

Lemma shift_1_next (s : list cell) t :
  (S t < length s)%nat → shift 1 s !! S t = s !! t.
Proof.
  intros Ht. unfold shift. rewrite bool_decide_true by lia.
  replace (Nat.min (Z.to_nat 1) (length s)) with 1%nat by lia.
  simpl. rewrite lookup_take_lt by lia. done.
Qed.

(** [s.shift(-h)] reads [h] rows ahead. *)
Lemma shift_ahead (s : list cell) (h t : nat) :
  (t + h < length s)%nat → shift (- Z.of_nat h) s !! t = s !! (t + h)%nat.
Proof.
  intros Ht. unfold shift. case_bool_decide as Hh.
  - assert (h = 0%nat) as -> by lia. simpl.
    rewrite Nat.sub_0_r, firstn_all, Nat.add_0_r. done.
  - replace (Nat.min (Z.to_nat (- - Z.of_nat h)) (length s)) with h by lia.
    rewrite lookup_app_l by (rewrite length_drop; lia).
    rewrite lookup_drop. f_equal. lia.
Qed.

Lemma shift_ahead_end (s : list cell) (h t : nat) :
  (0 < h)%nat → (t < length s)%nat → (length s ≤ t + h)%nat →
  shift (- Z.of_nat h) s !! t = Some NaN.
Proof.
  intros Hh Ht Hth. unfold shift. rewrite bool_decide_false by lia.
  replace (Z.to_nat (- - Z.of_nat h)) with h by lia.
  rewrite lookup_app_r by (rewrite length_drop; lia).
  rewrite length_drop. apply lookup_replicate_2. lia.
Qed.

(** ** Column names *)

Lemma ofi_col_inj (i j : nat) : ofi_col i = ofi_col j → i = j.
Proof. unfold ofi_col. simpl. intros H. by simplify_eq. Qed.

Lemma ofi_col_not_midpoint (i : nat) : "midpoint" ≠ ofi_col i.
Proof. done. Qed.

Lemma ofi_col_not_time (i : nat) : "system_time" ≠ ofi_col i.
Proof. done. Qed.

Lemma ofi_col_not_bid_distance (i j : nat) : "bid" +:+ "s_distance_" +:+ pretty j ≠ ofi_col i.
Proof. done. Qed.

Lemma ofi_col_not_ask_distance (i j : nat) : "ask" +:+ "s_distance_" +:+ pretty j ≠ ofi_col i.
Proof. done. Qed.

Lemma ofi_col_not_bid_notional (i j : nat) : "bid" +:+ "s_notional_" +:+ pretty j ≠ ofi_col i.
Proof. done. Qed.

Lemma ofi_col_not_ask_notional (i j : nat) : "ask" +:+ "s_notional_" +:+ pretty j ≠ ofi_col i.
Proof. done. Qed.

Lemma ofi_col_not_aggregated (i : nat) : "OFI_aggregated" ≠ ofi_col i.
Proof. done. Qed.

(** ** The loop over the levels *)

Lemma ofi_level_inv level df df' :
  ofi_level level df = (Ok (), df') →
  ∃ v, ofi_of df level = Some v ∧
       df' = mkDF (index df) (<[ofi_col level := v]> (columns df))
                  (datetimes df ∖ {[ofi_col level]}).
Proof.
  unfold ofi_level, reconstruct_price, reconstruct_size, bind, getitem, ret,
    setitem, modify, ofi_of, ofi_vec.
  intros H. repeat case_match; simplify_eq/=.
  repeat match goal with Hc : columns _ !! _ = Some _ |- _ => rewrite Hc; clear Hc end.
  simpl. eauto.
Qed.

Lemma ofi_level_run level df v :
  ofi_of df level = Some v →
  ofi_level level df
  = (Ok (), mkDF (index df) (<[ofi_col level := v]> (columns df))
                 (datetimes df ∖ {[ofi_col level]})).
Proof.
  unfold ofi_level, reconstruct_price, reconstruct_size, bind, getitem, ret,
    setitem, modify, ofi_of, ofi_vec.
  intros H.
  repeat match type of H with
         | context [columns ?d !! ?n] =>
             destruct (columns d !! n) eqn:?; cbn [mbind option_bind] in H; [|done]
         end.
  repeat (match goal with Hc : columns _ !! _ = Some _ |- _ => rewrite Hc end;
          cbn beta iota).
  by simplify_eq.
Qed.

(** The loop reads columns that it never writes. *)
Lemma ofi_of_same_inputs df df' level :
  (∀ name, (∀ l : nat, name ≠ ofi_col l) → columns df' !! name = columns df !! name) →
  ofi_of df' level = ofi_of df level.
Proof.
  intros Hin. unfold ofi_of.
  rewrite !Hin; [done|intros l; done..].
Qed.

Lemma for_each_ofi_level ls df df' :
  for_each ofi_level ls df = (Ok (), df') →
  index df' = index df ∧
  (∀ name, (∀ l, l ∈ ls → name ≠ ofi_col l) → columns df' !! name = columns df !! name) ∧
  (∀ l, l ∈ ls → is_Some (ofi_of df l) ∧ columns df' !! ofi_col l = ofi_of df l).
Proof.
  revert df. induction ls as [|l ls IH]; intros df H; simpl in H.
  - unfold ret in H. simplify_eq. split_and!; [done..|]. intros l Hl. by apply elem_of_nil in Hl.
  - unfold bind in H. destruct (ofi_level l df) as [[[]|e] df1] eqn:Hl; [|done].
    apply ofi_level_inv in Hl as (v & Hv & ->).
    apply IH in H as (Hi & Hother & Hofi). simpl in *.
    assert (∀ l', ofi_of (mkDF (index df) (<[ofi_col l:=v]> (columns df))
                               (datetimes df ∖ {[ofi_col l]})) l' = ofi_of df l')
      as Hsame.
    { intros l'. apply ofi_of_same_inputs. intros name Hname. simpl.
      apply lookup_insert_ne. apply not_eq_sym, Hname. }
    split_and!; [done| |].
    + intros name Hname. rewrite Hother.
      * apply lookup_insert_ne, not_eq_sym, Hname. left.
      * intros l' Hl'. apply Hname. by right.
    + intros l' Hl'. destruct (decide (l' ∈ ls)) as [Hin|Hin].
      * destruct (Hofi l' Hin) as [? ->]. by rewrite <-Hsame.
      * apply elem_of_cons in Hl' as [->|?]; [|done].
        rewrite Hother.
        -- rewrite lookup_insert_eq. by rewrite Hv.
        -- intros l' Hl' Heq. apply ofi_col_inj in Heq. by subst.
Qed.

Lemma for_each_ofi_level_run ls df :
  (∀ l, l ∈ ls → is_Some (ofi_of df l)) →
  ∃ df', for_each ofi_level ls df = (Ok (), df').
Proof.
  revert df. induction ls as [|l ls IH]; intros df H; simpl.
  - by eexists.
  - destruct (H l) as [v Hv]; [left|].
    unfold bind. rewrite (ofi_level_run _ _ _ Hv).
    apply IH. intros l' Hl'.
    rewrite (ofi_of_same_inputs df); [apply H; by right|].
    intros name Hname. simpl. apply lookup_insert_ne, not_eq_sym, Hname.
Qed.

Lemma for_each_ofi_level_datetimes ls df df' :
  for_each ofi_level ls df = (Ok (), df') →
  datetimes df' = datetimes df ∖ list_to_set (ofi_col <$> ls).
Proof.
  revert df. induction ls as [|l ls IH]; intros df H; simpl in H.
  - unfold ret in H. simplify_eq. simpl. by rewrite difference_empty_L.
  - unfold bind in H. destruct (ofi_level l df) as [[[]|e] df1] eqn:Hl; [|done].
    apply ofi_level_inv in Hl as (v & Hv & ->).
    apply IH in H. rewrite H. simpl. by rewrite difference_difference_l_L.
Qed.

(** After the loop the frame can be filled when the datetime64 columns that
    the loop has not overwritten have no missing cell. *)
Lemma fillable_looped ls df df' :
  for_each ofi_level ls df = (Ok (), df') →
  fillable df' ↔
  ∀ name c, name ∈ datetimes df → name ∉ ofi_col <$> ls →
            columns df !! name = Some c → Forall (λ x, isna x = false) c.
Proof.
  intros Hloop. pose proof (for_each_ofi_level_datetimes _ _ _ Hloop) as Hdt.
  apply for_each_ofi_level in Hloop as (_ & Hother & _).
  assert (∀ name, name ∉ ofi_col <$> ls →
            columns df' !! name = columns df !! name) as Hkeep.
  { intros name Hname. apply Hother. intros l Hl ->. apply Hname.
    by apply list_elem_of_fmap_2. }
  unfold fillable. split.
  - intros Hfill name c Hin Hname Hc. apply (Hfill name c).
    + by rewrite Hkeep.
    + rewrite Hdt. apply elem_of_difference. by rewrite elem_of_list_to_set.
  - intros Hall name c Hc Hin. rewrite Hdt in Hin.
    apply elem_of_difference in Hin as [Hin Hname].
    rewrite elem_of_list_to_set in Hname.
    apply (Hall name c); [done..|]. by rewrite <-Hkeep.
Qed.

(** ** Reading a series expression at one row *)

Lemma at_row_zip_with (f : cell → cell → cell) a b t :
  (t < length a)%nat → (t < length b)%nat →
  at_row (zip_with f a b) t = f (at_row a t) (at_row b t).
Proof.
  intros Ha Hb. rewrite !at_row_lookup, lookup_zip_with.
  destruct (lookup_lt_is_Some_2 a t Ha) as [x ->].
  destruct (lookup_lt_is_Some_2 b t Hb) as [y ->]. done.
Qed.

Lemma at_row_fmap (f : cell → cell) a t :
  (t < length a)%nat → at_row (f <$> a) t = f (at_row a t).
Proof.
  intros Ha. rewrite !at_row_lookup, list_lookup_fmap.
  destruct (lookup_lt_is_Some_2 a t Ha) as [x ->]. done.
Qed.

Lemma at_row_shift_1_first a : at_row (shift 1 a) 0 = NaN.
Proof.
  rewrite at_row_lookup. destruct a as [|x a]; [done|].
  by rewrite shift_1_first.
Qed.

Lemma at_row_shift_1_next a t :
  (S t < length a)%nat → at_row (shift 1 a) (S t) = at_row a t.
Proof. intros Ht. by rewrite !at_row_lookup, shift_1_next. Qed.

Lemma at_row_Some (a : list cell) t :
  (t < length a)%nat → a !! t = Some (at_row a t).
Proof.
  intros Ha. rewrite at_row_lookup.
  destruct (lookup_lt_is_Some_2 a t Ha) as [x ->]. done.
Qed.

Ltac series_lengths :=
  unfold sadd, ssub, smul, sdiv, sdivc, ssubc;
  repeat first [rewrite length_zip_with | rewrite length_fmap | rewrite length_shift];
  lia.

Lemma length_ofi_vec n mid bd ad bn an :
  length mid = n → length bd = n → length ad = n → length bn = n → length an = n →
  length (ofi_vec mid bd ad bn an) = n.
Proof. intros. unfold ofi_vec. series_lengths. Qed.

(** Row 0 has no predecessor: the shifted operands are NaN there, and so is
    the value assigned. *)
Lemma ofi_vec_first n mid bd ad bn an :
  length mid = n → length bd = n → length ad = n → length bn = n → length an = n →
  (0 < n)%nat →
  at_row (ofi_vec mid bd ad bn an) 0 = NaN.
Proof.
  intros. unfold ofi_vec, ssub at 1.
  rewrite at_row_zip_with by series_lengths.
  unfold sdivc at 1. rewrite at_row_fmap by series_lengths.
  unfold smul at 1. rewrite at_row_zip_with by series_lengths.
  unfold ssub at 1. rewrite at_row_zip_with by series_lengths.
  rewrite at_row_shift_1_first, sub_nan_r. done.
Qed.

Lemma ofi_vec_next n mid bd ad bn an t :
  length mid = n → length bd = n → length ad = n → length bn = n → length an = n →
  (S t < n)%nat →
  at_row (ofi_vec mid bd ad bn an) (S t) =
    (((at_row mid (S t) + at_row bd (S t)) - (at_row mid t + at_row bd t))
       * (at_row bn (S t) + at_row bn t) / two
     - ((at_row mid (S t) + at_row ad (S t)) - (at_row mid t + at_row ad t))
       * (at_row an (S t) + at_row an t) / two)%cell.
Proof.
  intros. unfold ofi_vec, ssub, sdivc, smul, sadd.
  repeat first
    [ rewrite at_row_shift_1_next by series_lengths
    | rewrite at_row_zip_with by series_lengths
    | rewrite at_row_fmap by series_lengths ].
  done.
Qed.

(** ** compute_ofi_for_btc *)

Lemma elem_of_range (i : nat) (n : Z) : i ∈ range n ↔ Z.of_nat i < n.
Proof. unfold range. rewrite elem_of_seq. lia. Qed.

Lemma wf_take_rows ps df : wf (take_rows ps df).
Proof.
  unfold wf, take_rows, nrows. simpl. intros name c Hc.
  apply lookup_fmap_Some in Hc as (c0 & <- & _). by rewrite !length_fmap.
Qed.

Lemma wf_reset_index df : wf df → wf (reset_index df).
Proof.
  unfold wf, reset_index, nrows. simpl. intros H name c Hc.
  rewrite length_fmap, length_seq. by eapply H.
Qed.

Lemma wf_engine_order argsort df :
  is_Some (columns df !! "system_time") → wf (engine_order argsort df).
Proof.
  intros [keys Hk]. unfold engine_order. rewrite Hk.
  apply wf_reset_index, wf_take_rows.
Qed.

Lemma nrows_reset_index df : nrows (reset_index df) = nrows df.
Proof. unfold reset_index, nrows. simpl. by rewrite length_fmap, length_seq. Qed.

Lemma compute_ofi_inv argsort L df out :
  compute_ofi_for_btc argsort L df = (Ok (), out) →
  is_Some (columns df !! "system_time") ∧
  ∃ looped,
    for_each ofi_level (range L) (engine_order argsort df) = (Ok (), looped) ∧
    fillable looped ∧
    out = filled zero looped.
Proof.
  unfold compute_ofi_for_btc, sort_values, engine_order, bind, getitem, modify, fillna.
  destruct (columns df !! "system_time") as [keys|]; [|done].
  destruct (for_each _ _ _) as [[[]|e] looped]; [|done].
  case_decide; [|done]. intros [= <-]. eauto.
Qed.



Lemma datetimes_engine_order argsort df :
  datetimes (engine_order argsort df) = datetimes df.
Proof. unfold engine_order. by destruct (columns df !! "system_time"). Qed.


Lemma datetimes_compute_ofi argsort L df out :
  compute_ofi_for_btc argsort L df = (Ok (), out) →
  datetimes out = datetimes df ∖ list_to_set (ofi_col <$> range L).
Proof.
  intros (_ & looped & Hloop & _ & ->)%compute_ofi_inv. simpl.
  by rewrite (for_each_ofi_level_datetimes _ _ _ Hloop), datetimes_engine_order.
Qed.

Lemma ofi_of_length df level v :
  wf df → ofi_of df level = Some v → length v = nrows df.
Proof.
  unfold ofi_of. intros Hwf H.
  repeat match type of H with
         | context [columns ?d !! ?n] =>
             destruct (columns d !! n) eqn:?; cbn [mbind option_bind] in H; [|done]
         end.
  simplify_eq. apply length_ofi_vec; by eapply Hwf.
Qed.

Lemma ofi_of_first df level v :
  wf df → ofi_of df level = Some v → (0 < nrows df)%nat → v !! 0%nat = Some NaN.
Proof.
  intros Hwf H Hn. rewrite at_row_Some by (erewrite ofi_of_length; done).
  f_equal. revert H. unfold ofi_of. intros H.
  repeat match type of H with
         | context [columns ?d !! ?n] =>
             destruct (columns d !! n) eqn:?; cbn [mbind option_bind] in H; [|done]
         end.
  simplify_eq. apply (ofi_vec_first (nrows df)); [by eapply Hwf..|done].
Qed.

Lemma val_column df name c t :
  columns df !! name = Some c → val df name t = at_row c t.
Proof. intros H. unfold val, loc. rewrite H. simpl. by rewrite at_row_lookup. Qed.

Lemma ofi_of_next df level v t :
  wf df → ofi_of df level = Some v → (S t < nrows df)%nat →
  v !! S t = Some (ofi_formula df level (S t)).
Proof.
  intros Hwf H Hn. rewrite at_row_Some by (erewrite ofi_of_length; done).
  f_equal. revert H. unfold ofi_of. intros H.
  repeat match type of H with
         | context [columns ?d !! ?n] =>
             destruct (columns d !! n) eqn:?; cbn [mbind option_bind] in H; [|done]
         end.
  simplify_eq. rewrite (ofi_vec_next (nrows df)); [|by eapply Hwf..|done].
  unfold ofi_formula, price, size. replace (S t - 1)%nat with t by lia.
  by repeat erewrite val_column by done.
Qed.

Lemma columns_filled v df name :
  columns (filled v df) !! name = fmap (fill v) <$> columns df !! name.
Proof. unfold filled. simpl. by rewrite lookup_fmap. Qed.

Lemma loc_filled v df name p :
  loc (filled v df) name p = fill v <$> loc df name p.
Proof.
  unfold loc. rewrite columns_filled.
  destruct (columns df !! name) as [c|]; [|done]. simpl.
  by rewrite list_lookup_fmap.
Qed.

Lemma nrows_filled v df : nrows (filled v df) = nrows df.
Proof. done. Qed.

Lemma compute_ofi_level argsort L df out (i : nat) :
  compute_ofi_for_btc argsort L df = (Ok (), out) →
  Z.of_nat i < L →
  nrows out = nrows (engine_order argsort df) ∧
  ∃ v, ofi_of (engine_order argsort df) i = Some v ∧
       columns out !! ofi_col i = Some (fill zero <$> v).
Proof.
  intros (_ & looped & Hloop & _ & ->)%compute_ofi_inv Hi.
  apply for_each_ofi_level in Hloop as (Hidx & _ & Hofi).
  destruct (Hofi i) as [[v Hv] Hcol]; [by apply elem_of_range|].
  split.
  - unfold nrows. simpl. by rewrite Hidx.
  - exists v. split; [done|]. by rewrite columns_filled, Hcol, Hv.
Qed.

Lemma compute_ofi_other argsort L df out name :
  compute_ofi_for_btc argsort L df = (Ok (), out) →
  (∀ i : nat, Z.of_nat i < L → name ≠ ofi_col i) →
  columns out !! name = fmap (fill zero) <$> columns (engine_order argsort df) !! name.
Proof.
  intros (_ & looped & Hloop & _ & ->)%compute_ofi_inv Hname.
  apply for_each_ofi_level in Hloop as (_ & Hother & _).
  rewrite columns_filled, Hother; [done|].
  intros l Hl. by apply Hname, elem_of_range.
Qed.

(** A frame that [sort_values] leaves in place goes into the loop with its
    columns as they are. *)
Lemma engine_order_in_place argsort df :
  wf df → in_sort_order argsort "system_time" df →
  columns (engine_order argsort df) = columns df ∧
  nrows (engine_order argsort df) = nrows df.
Proof.
  unfold in_sort_order, engine_order. intros Hwf Hfix.
  destruct (columns df !! "system_time") as [keys|] eqn:Hk; [|done]. rewrite Hfix.
  assert (length keys = nrows df) as Hlen by by eapply Hwf.
  split.
  - simpl. apply map_eq. intros name. rewrite lookup_fmap.
    destruct (columns df !! name) as [c|] eqn:Hc; [|done]. simpl. f_equal.
    rewrite Hlen, <-(Hwf _ _ Hc). apply at_row_seq.
  - rewrite nrows_reset_index. unfold nrows, take_rows. simpl.
    by rewrite length_fmap, length_seq.
Qed.

Lemma ofi_formula_columns df df' i t :
  columns df = columns df' → ofi_formula df i t = ofi_formula df' i t.
Proof.
  intros H. unfold ofi_formula, price, size, val, loc. by rewrite H.
Qed.

(** ** The order of the sort keys, and two sorts that meet the contract *)

Lemma cell_le_trans x y z : Cell.le x y → Cell.le y z → Cell.le x z.
Proof.
  destruct x as [|[]|p], y as [|[]|q], z as [|[]|r]; simpl;
    try (intros; apply I); try (intuition congruence).
  apply Qcle_trans.
Qed.

Lemma cell_le_total x y : isna x = false → isna y = false → Cell.le x y ∨ Cell.le y x.
Proof.
  destruct x as [|[]|p], y as [|[]|q]; simpl; try (intuition congruence).
  intros _ _. destruct (Qclt_le_dec q p) as [?%Qclt_le_weak|?]; auto.
Qed.

Lemma cell_le_antisym x y : Cell.le x y → Cell.le y x → x = y.
Proof.
  destruct x as [|[]|p], y as [|[]|q]; simpl; try (intuition congruence).
  intros. f_equal. by apply Qcle_antisym.
Qed.

#[global] Instance key_le_trans : Transitive key_le.
Proof.
  intros x y z [Hy|Hxy] [Hz|Hyz]; try (by left).
  - destruct y; [|done..]. by destruct x.
  - right. by eapply cell_le_trans.
Qed.

Lemma key_le_total x y : key_le x y ∨ key_le y x.
Proof.
  destruct (isna y) eqn:Hy; [by left; left|].
  destruct (isna x) eqn:Hx; [by right; left|].
  destruct (cell_le_total x y Hx Hy); [left|right]; by right.
Qed.

Lemma key_le_notna x y : isna y = false → key_le x y → Cell.le x y.
Proof. intros Hy [?|?]; [congruence|done]. Qed.

Section insertion.

Variable R : relation nat.
Variable before : nat → nat → bool.
Hypothesis before_true : ∀ p q, before p q = true → R p q.
Hypothesis before_false : ∀ p q, before p q = false → R q p.

Lemma insert_pos_perm p ps : insert_pos before p ps ≡ₚ p :: ps.
Proof using Type.
  induction ps as [|q qs IH]; simpl; [done|].
  destruct (before p q); [done|]. rewrite IH. apply Permutation_swap.
Qed.

Lemma insert_pos_hd q p ps : R q p → HdRel R q ps → HdRel R q (insert_pos before p ps).
Proof using Type.
  intros Hqp Hq. destruct ps as [|r rs]; simpl; [by constructor|].
  destruct (before p r); constructor; [done|]. by inv Hq.
Qed.

Lemma insert_pos_sorted p ps : Sorted R ps → Sorted R (insert_pos before p ps).
Proof using before_true before_false.
  induction 1 as [|q qs Hs IH Hq]; simpl; [by repeat constructor|].
  destruct (before p q) eqn:Hb.
  - constructor; [by constructor|]. constructor. by apply before_true.
  - constructor; [done|]. apply insert_pos_hd; [|done]. by apply before_false.
Qed.

Lemma foldr_insert_pos_perm ps : foldr (insert_pos before) [] ps ≡ₚ ps.
Proof using Type.
  induction ps as [|p ps IH]; simpl; [done|]. by rewrite insert_pos_perm, IH.
Qed.

Lemma foldr_insert_pos_sorted ps : Sorted R (foldr (insert_pos before) [] ps).
Proof using before_true before_false.
  induction ps as [|p ps IH]; simpl; [constructor|]. by apply insert_pos_sorted.
Qed.

End insertion.

Lemma argsort_by_spec before :
  (∀ ks p q, before ks p q = true → key_le (at_row ks p) (at_row ks q)) →
  (∀ ks p q, before ks p q = false → key_le (at_row ks q) (at_row ks p)) →
  argsort_spec (argsort_by before).
Proof.
  intros Ht Hf. split; intros ks; unfold argsort_by.
  - apply foldr_insert_pos_perm.
  - apply (Sorted_fmap _ (λ p q, key_le (at_row ks p) (at_row ks q))); [done|].
    apply foldr_insert_pos_sorted; [apply Ht|apply Hf].
Qed.

Lemma stable_argsort_spec : argsort_spec stable_argsort.
Proof.
  apply argsort_by_spec; unfold key_before; intros ks p q H.
  - by apply bool_decide_eq_true in H.
  - apply bool_decide_eq_false in H. by destruct (key_le_total (at_row ks p) (at_row ks q)).
Qed.

Lemma reversing_argsort_spec : argsort_spec reversing_argsort.
Proof.
  apply argsort_by_spec; intros ks p q H.
  - apply bool_decide_eq_true in H. by destruct (key_le_total (at_row ks p) (at_row ks q)).
  - apply bool_decide_eq_false in H. by apply dec_stable.
Qed.

(** ** The columns a call needs *)

Lemma filter_all {A} (P : A → Prop) `{∀ x, Decision (P x)} (l : list A) :
  Forall P l → filter P l = l.
Proof.
  induction 1 as [|x l Hx _ IH]; [done|]. by rewrite filter_cons_True, IH.
Qed.

Lemma filter_none {A} (P : A → Prop) `{∀ x, Decision (P x)} (l : list A) :
  Forall (λ x, ¬ P x) l → filter P l = [].
Proof.
  induction 1 as [|x l Hx _ IH]; [done|]. by rewrite filter_cons_False, IH.
Qed.

Lemma first_missing_None df names :
  first_missing df names = None ↔ ∀ n, n ∈ names → is_Some (columns df !! n).
Proof.
  unfold first_missing. rewrite head_None. split.
  - intros Hnil n Hn. destruct (columns df !! n) eqn:Hc; [done|].
    assert (n ∈ filter (λ n, columns df !! n = None) names) as Hin
      by by apply list_elem_of_filter.
    rewrite Hnil in Hin. by apply elem_of_nil in Hin.
  - intros Hall. apply filter_none, Forall_forall. intros n Hn Hnone.
    destruct (Hall n Hn) as [c Hc]. congruence.
Qed.

Lemma first_missing_Some df names n :
  first_missing df names = Some n → n ∈ names ∧ columns df !! n = None.
Proof.
  unfold first_missing. intros Hh.
  assert (n ∈ filter (λ n, columns df !! n = None) names) as Hin.
  { destruct (filter _ names); simplify_eq/=. by left. }
  apply list_elem_of_filter in Hin. tauto.
Qed.

Lemma ofi_of_first_missing df level :
  is_Some (ofi_of df level) ↔ first_missing df (level_inputs level) = None.
Proof.
  rewrite first_missing_None. unfold ofi_of, level_inputs. split.
  - intros [v Hv] n Hn.
    repeat match type of Hv with
           | context [columns ?d !! ?m] =>
               destruct (columns d !! m) eqn:?; cbn [mbind option_bind] in Hv; [|done]
           end.
    set_unfold. destruct Hn as [->|[->|[->|[->|[->|[->|[]]]]]]]; eauto.
  - intros Hall.
    destruct (Hall "midpoint") as [mid ->]; [set_solver|].
    destruct (Hall ("bid" +:+ "s_distance_" +:+ pretty level)) as [bd ->]; [set_solver|].
    destruct (Hall ("ask" +:+ "s_distance_" +:+ pretty level)) as [ad ->]; [set_solver|].
    destruct (Hall ("bid" +:+ "s_notional_" +:+ pretty level)) as [bn ->]; [set_solver|].
    destruct (Hall ("ask" +:+ "s_notional_" +:+ pretty level)) as [an ->]; [set_solver|].
    simpl. eauto.
Qed.

Lemma engine_order_lookup_None argsort df n :
  columns (engine_order argsort df) !! n = None ↔ columns df !! n = None.
Proof.
  unfold engine_order. destruct (columns df !! "system_time"); [|done].
  simpl. by rewrite lookup_fmap, fmap_None.
Qed.

Lemma first_missing_engine_order argsort df names :
  first_missing (engine_order argsort df) names = first_missing df names.
Proof.
  unfold first_missing. f_equal. apply list_filter_iff.
  intros n. apply engine_order_lookup_None.
Qed.

Lemma index_engine_order argsort df :
  is_Some (columns df !! "system_time") →
  index (engine_order argsort df)
  = Z.of_nat <$> seq 0 (nrows (engine_order argsort df)).
Proof.
  intros [keys Hk]. unfold engine_order. rewrite Hk.
  by rewrite nrows_reset_index.
Qed.

Lemma elem_of_ofi_cols name L :
  name ∈ ofi_col <$> range L ↔ ∃ i : nat, Z.of_nat i < L ∧ name = ofi_col i.
Proof.
  rewrite list_elem_of_fmap. split.
  - intros (i & -> & Hi%elem_of_range). eauto.
  - intros (i & Hi & ->). exists i. by rewrite elem_of_range.
Qed.

(** ** Claims on compute_ofi_for_btc *)

(** C2. Whatever the table, the first row of the table that
    [compute_ofi_for_btc] produces has 0 in [OFI_level_i], for every level
    [i] below [max_levels]: the row has no predecessor, the value computed
    there is NaN, and the final [fillna(0)] replaces it. *)
Theorem compute_ofi_first_row_zero argsort L df out (i : nat) :
  compute_ofi_for_btc argsort L df = (Ok (), out) →
  Z.of_nat i < L →
  (0 < nrows out)%nat →
  loc out (ofi_col i) 0 = Some zero.
Proof.
  intros Hrun Hi Hn.
  pose proof (compute_ofi_inv _ _ _ _ Hrun) as [Hk _].
  destruct (compute_ofi_level _ _ _ _ i Hrun Hi) as (Hrows & v & Hv & Hcol).
  unfold loc. rewrite Hcol. simpl. rewrite list_lookup_fmap.
  rewrite (ofi_of_first _ _ _ (wf_engine_order argsort df Hk) Hv) by lia.
  done.
Qed.

Lemma compute_ofi_first_row_zero_witness :
  loc (compute_ofi_for_btc stable_argsort 1 book).2 (ofi_col 0) 0 = Some zero.
Proof.
  apply (compute_ofi_first_row_zero stable_argsort 1 book).
  - vm_compute. reflexivity.
  - lia.
  - vm_compute. lia.
Defined.

(** C1, as the code has it. For a table in timestamp order that the engine's
    [sort_values] leaves in place (as it does when no two rows share a
    timestamp, [increasing_in_sort_order]), a row [t > 0] and a level [i]
    below [max_levels]: where the closed form over the rows [t] and [t - 1],
    (bidPrice(t) - bidPrice(t-1)) * (bidSize(t) + bidSize(t-1)) / 2
    - (askPrice(t) - askPrice(t-1)) * (askSize(t) + askSize(t-1)) / 2
    with price = midpoint + distance and size = notional, has a value (it has
    one when the cells it reads are finite, [ofi_formula_finite]), that value
    is what [OFI_level_i] holds at row [t]. *)
Theorem compute_ofi_closed_form argsort L df out (i t : nat) :
  wf df →
  in_sort_order argsort "system_time" df →
  compute_ofi_for_btc argsort L df = (Ok (), out) →
  Z.of_nat i < L →
  (0 < t < nrows df)%nat →
  isna (ofi_formula df i t) = false →
  loc out (ofi_col i) t = Some (ofi_formula df i t).
Proof.
  intros Hwf Hord Hrun Hi Ht Hna.
  pose proof (compute_ofi_inv _ _ _ _ Hrun) as [Hk _].
  destruct (engine_order_in_place argsort df Hwf Hord) as [Hcols Hrows].
  destruct (compute_ofi_level _ _ _ _ i Hrun Hi) as (_ & v & Hv & Hcol).
  unfold loc. rewrite Hcol. simpl. rewrite list_lookup_fmap.
  destruct t as [|t]; [lia|].
  rewrite (ofi_of_next _ _ _ _ (wf_engine_order argsort df Hk) Hv) by lia.
  simpl. rewrite (ofi_formula_columns _ df) by done. by rewrite fill_notna.
Qed.

Lemma compute_ofi_closed_form_witness :
  loc (compute_ofi_for_btc stable_argsort 1 book).2 (ofi_col 0) 3
  = Some (ofi_formula book 0 3).
Proof.
  refine (compute_ofi_closed_form stable_argsort 1 book _ 0%nat 3%nat _ _ _ _ _ _).
  - apply (bool_decide_unpack _). vm_compute. exact I.
  - apply (bool_decide_unpack _). vm_compute. exact I.
  - vm_compute. reflexivity.
  - lia.
  - vm_compute. lia.
  - vm_compute. reflexivity.
Defined.

(** C1 as stated fails where rows share a timestamp: [ties] is sorted by
    timestamp and has no missing cell, but an argsort within the contract of
    [sort_values] may move its rows, here end to end, and the value stored at
    row 1 is that of the moved rows, not the closed form over the rows 1 and
    0 of the table passed. *)
Lemma compute_ofi_closed_form_counterexample :
  let out := (compute_ofi_for_btc reversing_argsort 1 ties).2 in
  argsort_spec reversing_argsort ∧
  (compute_ofi_for_btc reversing_argsort 1 ties).1 = Ok () ∧
  wf ties ∧ complete ties ∧ sorted_by "system_time" ties ∧
  ofi_formula ties 0 1 = of_Z 2 ∧
  loc out (ofi_col 0) 1 = Some (of_Z (-2)) ∧
  loc out (ofi_col 0) 1 ≠ Some (ofi_formula ties 0 1).
Proof.
  cbv zeta. split; [exact reversing_argsort_spec|].
  apply (bool_decide_unpack _). vm_compute. exact I.
Qed.

Lemma complete_filled_zero df : complete (filled zero df).
Proof.
  intros name c Hc. rewrite columns_filled in Hc.
  destruct (columns df !! name) as [c0|]; simplify_eq/=.
  apply Forall_fmap, Forall_true. intros x. apply isna_fill_zero.
Qed.




(** ** integrate_multi_level_ofi *)

Lemma getitems_state names df : (getitems names df).2 = df.
Proof.
  induction names as [|n ns IH]; simpl; [done|].
  unfold bind, getitem. destruct (columns df !! n); [|done].
  destruct (getitems ns df) as [[cs|e] df'] eqn:Hg; simpl in *; by subst.
Qed.

Lemma getitems_ok names df :
  (∀ n, n ∈ names → is_Some (columns df !! n)) →
  getitems names df = (Ok (column_or_empty df <$> names), df).
Proof.
  induction names as [|n ns IH]; intros H; simpl; [done|].
  unfold bind, getitem, column_or_empty. destruct (H n) as [c Hc]; [left|].
  rewrite Hc, IH; [done|]. intros n' Hn'. apply H. by right.
Qed.

Lemma getitems_raise names df :
  ¬ (∀ n, n ∈ names → is_Some (columns df !! n)) →
  ∃ n, n ∈ names ∧ columns df !! n = None ∧
       getitems names df = (Raise (KeyError n), df).
Proof.
  induction names as [|n ns IH]; intros H; simpl.
  - destruct H. intros n Hn. by apply elem_of_nil in Hn.
  - unfold bind, getitem. destruct (columns df !! n) as [c|] eqn:Hc.
    + destruct IH as (n' & Hn' & Hnone & ->).
      { intros Hns. apply H. intros n' [->|?]%elem_of_cons; eauto. }
      exists n'. split_and!; [by right|done..].
    + exists n. split_and!; [by left|done..].
Qed.

Lemma getitems_inv names df cs df' :
  getitems names df = (Ok cs, df') →
  df' = df ∧ cs = column_or_empty df <$> names ∧
  ∀ n, n ∈ names → is_Some (columns df !! n).
Proof.
  intros H.
  destruct (decide (Forall (λ n, is_Some (columns df !! n)) names)) as [Hall|Hnot].
  - rewrite Forall_forall in Hall. rewrite getitems_ok in H by done. by simplify_eq.
  - rewrite Forall_forall in Hnot.
    apply getitems_raise in Hnot as (n & _ & _ & Hr). congruence.
Qed.

Lemma add_zero_r x : (x + zero)%cell = x.
Proof. destruct x as [| |p]; [done..|]. simpl. by rewrite Qcplus_0_r. Qed.

(** Setting the missing cells to 0 before summing is summing the others. *)
Lemma nansum_present xs : nansum xs = total (present xs).
Proof.
  unfold nansum, total, present. generalize zero at 1 3 as acc.
  induction xs as [|x xs IH]; intros acc; [done|]. simpl.
  destruct x as [| |p].
  - rewrite filter_cons_False by done. cbn [fill isna]. rewrite add_zero_r. apply IH.
  - rewrite filter_cons_True by done. apply IH.
  - rewrite filter_cons_True by done. apply IH.
Qed.

Lemma nanmean_present xs : nanmean xs = mean (present xs).
Proof. unfold nanmean, mean. by rewrite nansum_present. Qed.

Lemma present_all xs : Forall (λ x, isna x = false) xs → present xs = xs.
Proof.
  unfold present. induction 1 as [|x xs Hx _ IH]; [done|].
  rewrite filter_cons_True by done. by rewrite IH.
Qed.

Lemma row_values_ofi df L t :
  row_values (column_or_empty df <$> (ofi_col <$> range L)) t = ofi_row df L t.
Proof.
  unfold row_values, ofi_row. rewrite <-!list_fmap_compose.
  apply list_fmap_ext. intros _ i _. simpl.
  unfold column_or_empty, val, loc. rewrite at_row_lookup.
  by destruct (columns df !! ofi_col i).
Qed.

(** What a call does, by method, once the per-level columns are there. *)
Lemma integrate_with_columns pca L m df :
  (∀ i : nat, Z.of_nat i < L → is_Some (columns df !! ofi_col i)) →
  let cs := column_or_empty df <$> (ofi_col <$> range L) in
  let set s := (Ok (), mkDF (index df) (<["OFI_aggregated" := s]> (columns df))
                            (datetimes df ∖ {["OFI_aggregated"]})) in
  integrate_multi_level_ofi pca L m df =
    if bool_decide (m = "PCA") then
      match pca cs with Ok agg => set agg | Raise e => (Raise e, df) end
    else if bool_decide (m = "sum") then set (sum_axis1 (nrows df) cs)
    else if bool_decide (m = "avg") then set (mean_axis1 (nrows df) cs)
    else (Raise unknown_method, df).
Proof.
  intros Hcols cs set.
  assert (getitems (ofi_col <$> range L) df = (Ok cs, df)) as Hget.
  { apply getitems_ok. intros n (i & -> & Hi)%list_elem_of_fmap.
    by apply Hcols, elem_of_range. }
  unfold integrate_multi_level_ofi, bind. rewrite Hget.
  repeat case_bool_decide; try done.
  - by destruct (pca cs).
  - by rewrite Hget.
  - by rewrite Hget.
Qed.

(** Without them the call stops at [df[ofi_cols]], whatever the method. *)
Lemma integrate_without_columns pca L m df :
  ¬ (∀ i : nat, Z.of_nat i < L → is_Some (columns df !! ofi_col i)) →
  ∃ i : nat, Z.of_nat i < L ∧ columns df !! ofi_col i = None ∧
    integrate_multi_level_ofi pca L m df = (Raise (KeyError (ofi_col i)), df).
Proof.
  intros Hcols.
  destruct (getitems_raise (ofi_col <$> range L) df) as (n & Hn & Hnone & Hget).
  { intros H. apply Hcols. intros i Hi. apply H, list_elem_of_fmap.
    exists i. by rewrite elem_of_range. }
  apply list_elem_of_fmap in Hn as (i & -> & Hi%elem_of_range).
  exists i. split_and!; [done..|].
  unfold integrate_multi_level_ofi, bind. by rewrite Hget.
Qed.

Lemma integrate_frame pca L m df r out :
  integrate_multi_level_ofi pca L m df = (r, out) →
  index out = index df ∧
  ∀ name, name ≠ "OFI_aggregated" →
    columns out !! name = columns df !! name ∧
    (name ∈ datetimes out ↔ name ∈ datetimes df).
Proof.
  destruct (decide (Forall (λ i, is_Some (columns df !! ofi_col i)) (range L)))
    as [Hcols|Hcols]; rewrite Forall_forall in Hcols.
  - rewrite integrate_with_columns by (intros i Hi; by apply Hcols, elem_of_range).
    cbv zeta. repeat case_bool_decide; try destruct (pca _);
      intros; simplify_eq/=; (split; [done|]); intros name Hname;
      rewrite ?lookup_insert_ne by done; (split; [done|]);
      rewrite ?elem_of_difference, ?elem_of_singleton; tauto.
  - destruct (integrate_without_columns pca L m df) as (i & _ & _ & ->).
    { intros H. apply Hcols. intros i Hi. by apply H, elem_of_range. }
    intros; by simplify_eq.
Qed.

Lemma sum_axis1_lookup n cs (t : nat) :
  (t < n)%nat → sum_axis1 n cs !! t = Some (nansum (row_values cs t)).
Proof. intros Ht. unfold sum_axis1. by rewrite list_lookup_fmap, lookup_seq_lt. Qed.

Lemma mean_axis1_lookup n cs (t : nat) :
  (t < n)%nat → mean_axis1 n cs !! t = Some (nanmean (row_values cs t)).
Proof. intros Ht. unfold mean_axis1. by rewrite list_lookup_fmap, lookup_seq_lt. Qed.

Lemma integrate_ok_columns pca L m df out :
  integrate_multi_level_ofi pca L m df = (Ok (), out) →
  ∀ i : nat, Z.of_nat i < L → is_Some (columns df !! ofi_col i).
Proof.
  intros Hrun.
  destruct (decide (Forall (λ i, is_Some (columns df !! ofi_col i)) (range L)))
    as [Hcols|Hcols]; rewrite Forall_forall in Hcols.
  - intros i Hi. by apply Hcols, elem_of_range.
  - destruct (integrate_without_columns pca L m df) as (i & _ & _ & Hr).
    { intros H. apply Hcols. intros i Hi. by apply H, elem_of_range. }
    congruence.
Qed.

(** C3, as the code has it. For a table with the columns [OFI_level_0] ..
    [OFI_level_(L-1)] and a row [t], method ['sum'] sets [OFI_aggregated(t)]
    to the sum of the [OFI_level_i(t)] that are not missing and method
    ['avg'] to their mean (NaN when all are missing): pandas skips missing
    cells. When no level is missing at row [t] these are the sum and the mean
    over all levels ([present_all]). *)
Theorem integrate_sum_avg pca L df out (t : nat) :
  (t < nrows df)%nat →
  (integrate_multi_level_ofi pca L "sum" df = (Ok (), out) →
   loc out "OFI_aggregated" t = Some (total (present (ofi_row df L t)))) ∧
  (integrate_multi_level_ofi pca L "avg" df = (Ok (), out) →
   loc out "OFI_aggregated" t = Some (mean (present (ofi_row df L t)))).
Proof.
  intros Ht. split; intros Hrun;
    pose proof (integrate_ok_columns _ _ _ _ _ Hrun) as Hcols;
    rewrite integrate_with_columns in Hrun by done; cbv zeta in Hrun;
    repeat first [ rewrite bool_decide_false in Hrun by done
                 | rewrite bool_decide_true in Hrun by done ];
    simplify_eq; unfold loc; simpl; rewrite lookup_insert_eq; simpl.
  - by rewrite sum_axis1_lookup, row_values_ofi, nansum_present.
  - by rewrite mean_axis1_lookup, row_values_ofi, nanmean_present.
Qed.

Lemma integrate_sum_avg_witness :
  loc (integrate_multi_level_ofi pca_unavailable 2 "sum" levels).2 "OFI_aggregated" 1
    = Some (of_Z 7) ∧
  loc (integrate_multi_level_ofi pca_unavailable 2 "avg" levels).2 "OFI_aggregated" 1
    = Some (mean (present (ofi_row levels 2 1))).
Proof.
  split.
  - rewrite (proj1 (integrate_sum_avg pca_unavailable 2 levels _ 1 ltac:(vm_compute; lia)))
      by (vm_compute; reflexivity).
    apply (bool_decide_unpack _). vm_compute. exact I.
  - apply (proj2 (integrate_sum_avg pca_unavailable 2 levels _ 1 ltac:(vm_compute; lia))).
    vm_compute. reflexivity.
Defined.

(** C3 as stated fails where a level is missing: in [levels_gap] level 0 is
    missing and level 1 holds 3; the sum and the mean over the two levels have
    no value (NaN), and both methods store 3. *)
Lemma integrate_sum_avg_counterexample :
  let by_sum := integrate_multi_level_ofi pca_unavailable 2 "sum" levels_gap in
  let by_avg := integrate_multi_level_ofi pca_unavailable 2 "avg" levels_gap in
  by_sum.1 = Ok () ∧ by_avg.1 = Ok () ∧
  ofi_row levels_gap 2 0 = [NaN; of_Z 3] ∧
  total (ofi_row levels_gap 2 0) = NaN ∧
  mean (ofi_row levels_gap 2 0) = NaN ∧
  loc by_sum.2 "OFI_aggregated" 0 = Some (of_Z 3) ∧
  loc by_avg.2 "OFI_aggregated" 0 = Some (of_Z 3) ∧
  loc by_sum.2 "OFI_aggregated" 0 ≠ Some (total (ofi_row levels_gap 2 0)) ∧
  loc by_avg.2 "OFI_aggregated" 0 ≠ Some (mean (ofi_row levels_gap 2 0)).
Proof.
  cbv zeta. apply (bool_decide_unpack _). vm_compute. exact I.
Qed.

(** C4, as the code has it. For a table that carries the columns
    [OFI_level_0] .. [OFI_level_(L-1)] and a method other than ['PCA'],
    ['sum'] and ['avg'], the call raises [ValueError] and leaves the table as
    it was: no [OFI_aggregated] is written, there is no fall-back to the sum. *)
Theorem integrate_unknown_method pca L m df :
  m ≠ "PCA" → m ≠ "sum" → m ≠ "avg" →
  (∀ i : nat, Z.of_nat i < L → is_Some (columns df !! ofi_col i)) →
  integrate_multi_level_ofi pca L m df = (Raise unknown_method, df).
Proof.
  intros H1 H2 H3 Hcols. rewrite integrate_with_columns by done. cbv zeta.
  by rewrite !bool_decide_false.
Qed.

Lemma integrate_unknown_method_witness :
  integrate_multi_level_ofi pca_unavailable 2 "median" levels
  = (Raise unknown_method, levels).
Proof.
  apply integrate_unknown_method; [discriminate..|].
  intros i Hi. destruct i as [|[|i]]; [vm_compute; eauto..|lia].
Defined.

(** C4 as stated fails on a table without the per-level columns: [book] has
    none, and the call stops at [df[ofi_cols]] with a [KeyError] before the
    method is looked at. And a table that had an [OFI_aggregated] column
    before the call, as [levels_stale], has it after the call has raised. *)
Lemma integrate_unknown_method_counterexample :
  integrate_multi_level_ofi pca_unavailable 1 "median" book
  = (Raise (KeyError "OFI_level_0"), book) ∧
  integrate_multi_level_ofi pca_unavailable 1 "median" book
  ≠ (Raise unknown_method, book) ∧
  integrate_multi_level_ofi pca_unavailable 2 "median" levels_stale
  = (Raise unknown_method, levels_stale) ∧
  columns levels_stale !! "OFI_aggregated" = Some (ints [0; 0]).
Proof.
  apply (bool_decide_unpack _). vm_compute. exact I.
Qed.

(** C9. With method ['sum'] or ['avg'] the call is a function of the table and
    of [max_levels] alone: two runs on equal tables end in the same result and
    the same table, hence the same [OFI_aggregated], whatever the PCA solver
    of either run does. *)
Theorem integrate_sum_avg_deterministic pca1 pca2 L m df1 df2 :
  m = "sum" ∨ m = "avg" →
  df1 = df2 →
  integrate_multi_level_ofi pca1 L m df1 = integrate_multi_level_ofi pca2 L m df2.
Proof.
  intros Hm <-. unfold integrate_multi_level_ofi, bind.
  destruct (getitems _ df1) as [[cs|e] df']; [|done].
  rewrite bool_decide_false; [done|]. by destruct Hm as [-> | ->].
Qed.

Lemma integrate_sum_avg_deterministic_witness :
  integrate_multi_level_ofi pca_unavailable 2 "avg" levels
  = integrate_multi_level_ofi (λ m, Ok (column_or_empty levels "OFI_level_0")) 2 "avg" levels.
Proof.
  apply integrate_sum_avg_deterministic; [right; reflexivity|reflexivity].
Defined.

(** ** The two stages and the columns that were there *)

Lemma fill_complete_column v (c : list cell) :
  Forall (λ x, isna x = false) c → fill v <$> c = c.
Proof.
  induction 1 as [|x c Hx _ IH]; [done|]. csimpl. by rewrite fill_notna, IH.
Qed.

(** C8, as the code has it. On a table in timestamp order (one that
    [sort_values] leaves in place) with no missing cell,
    [compute_ofi_for_btc] keeps every column but those named [OFI_level_i]
    for a level [i] below [max_levels], values, row order and dtype, and
    keeps the number of rows; it replaces the row labels by 0 .. N-1
    ([reset_index(drop=True)]). On any table [integrate_multi_level_ofi]
    keeps the row labels and every column but [OFI_aggregated]. A column of
    one of those names that was there before is overwritten. *)
Theorem stages_keep_other_columns argsort pca L df :
  (wf df → complete df → in_sort_order argsort "system_time" df →
   ∀ out, compute_ofi_for_btc argsort L df = (Ok (), out) →
     index out = Z.of_nat <$> seq 0 (nrows df) ∧
     nrows out = nrows df ∧
     ∀ name, (∀ i : nat, Z.of_nat i < L → name ≠ ofi_col i) →
       columns out !! name = columns df !! name ∧
       (name ∈ datetimes out ↔ name ∈ datetimes df)) ∧
  (∀ m r out, integrate_multi_level_ofi pca L m df = (r, out) →
     index out = index df ∧
     ∀ name, name ≠ "OFI_aggregated" →
       columns out !! name = columns df !! name ∧
       (name ∈ datetimes out ↔ name ∈ datetimes df)).
Proof.
  split.
  - intros Hwf Hcomplete Hord out Hrun.
    destruct (engine_order_in_place argsort df Hwf Hord) as [Hcols Hrows].
    pose proof (datetimes_compute_ofi _ _ _ _ Hrun) as Hdt.
    assert (index out = Z.of_nat <$> seq 0 (nrows df)) as Hidx.
    { pose proof (compute_ofi_inv _ _ _ _ Hrun) as (Hk & looped & Hloop & _ & ->).
      apply for_each_ofi_level in Hloop as (Hidx & _ & _).
      simpl. rewrite Hidx, index_engine_order by done. by rewrite Hrows. }
    split_and!; [done| |].
    + unfold nrows at 1. by rewrite Hidx, length_fmap, length_seq.
    + intros name Hname. split.
      * rewrite (compute_ofi_other _ _ _ _ _ Hrun Hname), Hcols.
        destruct (columns df !! name) as [c|] eqn:Hc; [|done]. simpl. f_equal.
        apply fill_complete_column. by eapply Hcomplete.
      * rewrite Hdt, elem_of_difference, elem_of_list_to_set, elem_of_ofi_cols.
        split; [tauto|]. intros Hin. split; [done|].
        intros (i & Hi & ->). by apply (Hname i).
  - intros m r out Hrun. by apply integrate_frame in Hrun.
Qed.

Lemma stages_keep_other_columns_witness :
  columns (compute_ofi_for_btc stable_argsort 1 book).2 !! "midpoint"
    = columns book !! "midpoint" ∧
  index (compute_ofi_for_btc stable_argsort 1 book).2 = [0; 1; 2; 3; 4] ∧
  columns (integrate_multi_level_ofi pca_unavailable 1 "sum" book).2 !! "midpoint"
    = columns book !! "midpoint".
Proof.
  assert (wf book) as Hwf by (apply (bool_decide_unpack _); vm_compute; exact I).
  assert (complete book) as Hc by (apply (bool_decide_unpack _); vm_compute; exact I).
  assert (in_sort_order stable_argsort "system_time" book) as Ho
    by (apply (bool_decide_unpack _); vm_compute; exact I).
  destruct (stages_keep_other_columns stable_argsort pca_unavailable 1 book)
    as [Hcompute Hintegrate].
  destruct (Hcompute Hwf Hc Ho (compute_ofi_for_btc stable_argsort 1 book).2)
    as (Hidx & _ & Hcols); [vm_compute; reflexivity|].
  split_and!.
  - apply Hcols. intros i _. discriminate.
  - exact Hidx.
  - eapply Hintegrate; [apply surjective_pairing|discriminate].
Defined.

(** C8 as stated fails in three ways. For a column that bears the name of a
    derived one: [book_stale] is sorted and complete and has a column
    [OFI_level_0], which [compute_ofi_for_btc] overwrites; [levels_stale] has
    [OFI_aggregated], which [integrate_multi_level_ofi] overwrites. For rows
    that share a timestamp: [ties] is sorted and complete, but an argsort
    within the contract of [sort_values] may move its rows, here end to end,
    and the midpoints come back in another order. And for the row labels:
    [book_late] is sorted and complete under the labels 10 .. 14, and comes
    back under 0 .. 4. *)
Lemma stages_keep_other_columns_counterexample :
  (let out1 := (compute_ofi_for_btc stable_argsort 1 book_stale).2 in
   let out2 := (integrate_multi_level_ofi pca_unavailable 2 "sum" levels_stale).2 in
   wf book_stale ∧ complete book_stale ∧ increasing_by "system_time" book_stale ∧
   (compute_ofi_for_btc stable_argsort 1 book_stale).1 = Ok () ∧
   columns book_stale !! "OFI_level_0" = Some (ints [9; 9; 9; 9; 9]) ∧
   columns out1 !! "OFI_level_0" ≠ columns book_stale !! "OFI_level_0" ∧
   (integrate_multi_level_ofi pca_unavailable 2 "sum" levels_stale).1 = Ok () ∧
   columns levels_stale !! "OFI_aggregated" = Some (ints [0; 0]) ∧
   columns out2 !! "OFI_aggregated" = Some (ints [4; 7]) ∧
   columns out2 !! "OFI_aggregated" ≠ columns levels_stale !! "OFI_aggregated") ∧
  (let out := (compute_ofi_for_btc reversing_argsort 1 ties).2 in
   argsort_spec reversing_argsort ∧
   (compute_ofi_for_btc reversing_argsort 1 ties).1 = Ok () ∧
   wf ties ∧ complete ties ∧ sorted_by "system_time" ties ∧
   columns ties !! "midpoint" = Some (ints (seqZ 0 17)) ∧
   columns out !! "midpoint" = Some (ints (reverse (seqZ 0 17))) ∧
   columns out !! "midpoint" ≠ columns ties !! "midpoint") ∧
  (let out := (compute_ofi_for_btc stable_argsort 1 book_late).2 in
   wf book_late ∧ complete book_late ∧ increasing_by "system_time" book_late ∧
   (compute_ofi_for_btc stable_argsort 1 book_late).1 = Ok () ∧
   index book_late = [10; 11; 12; 13; 14] ∧
   index out = [0; 1; 2; 3; 4] ∧
   index out ≠ index book_late).
Proof.
  cbv zeta. split; [|split; [split; [exact reversing_argsort_spec|]|]];
    apply (bool_decide_unpack _); vm_compute; exact I.
Qed.

(** ** compute_short_term_returns *)

Lemma returns_run h df mid :
  columns df !! "midpoint" = Some mid →
  compute_short_term_returns h df = (Ok (), dropna (with_returns h mid df)).
Proof.
  intros Hm. unfold compute_short_term_returns, bind, getitem, setitem, modify.
  rewrite Hm. cbn beta iota. by rewrite Hm.
Qed.

Lemma returns_no_midpoint h df :
  columns df !! "midpoint" = None →
  compute_short_term_returns h df = (Raise (KeyError "midpoint"), df).
Proof.
  intros Hm. unfold compute_short_term_returns, bind, getitem. by rewrite Hm.
Qed.

Lemma length_ret_vec h mid : length (ret_vec h mid) = length mid.
Proof. unfold ret_vec. series_lengths. Qed.

Lemma div_nan_l x : (NaN / x)%cell = NaN.
Proof. done. Qed.

(** Past the end of the table there is no midpoint to divide. *)
Lemma ret_vec_end (h : Z) mid (t : nat) :
  0 < h → (t < length mid)%nat → Z.of_nat (length mid) ≤ Z.of_nat t + h →
  ret_vec h mid !! t = Some NaN.
Proof.
  intros Hh Ht Hend. unfold ret_vec, ssubc, sdiv.
  rewrite list_lookup_fmap, lookup_zip_with.
  replace h with (Z.of_nat (Z.to_nat h)) by lia.
  rewrite shift_ahead_end by lia. simpl.
  destruct (lookup_lt_is_Some_2 mid t Ht) as [x ->]. done.
Qed.

Lemma ret_vec_ahead (h : Z) mid (t : nat) :
  0 ≤ h → (Z.of_nat t + h < Z.of_nat (length mid)) →
  ret_vec h mid !! t
  = Some (at_row mid (t + Z.to_nat h) / at_row mid t - one)%cell.
Proof.
  intros Hh Ht. unfold ret_vec, ssubc, sdiv.
  rewrite list_lookup_fmap, lookup_zip_with.
  replace h with (Z.of_nat (Z.to_nat h)) at 1 by lia.
  rewrite shift_ahead by lia.
  rewrite (at_row_Some mid (t + Z.to_nat h)) by lia.
  rewrite (at_row_Some mid t) by lia. done.
Qed.

Lemma filter_seq_below (P : nat → Prop) `{∀ p, Decision (P p)} (k n : nat) :
  (k ≤ n)%nat → (∀ p, (p < n)%nat → P p ↔ (p < k)%nat) →
  filter P (seq 0 n) = seq 0 k.
Proof.
  intros Hk HP. replace n with (k + (n - k))%nat by lia.
  rewrite seq_app, filter_app. simpl.
  rewrite filter_all, filter_none.
  - by rewrite app_nil_r.
  - apply Forall_forall. intros p Hp%elem_of_seq. rewrite HP; lia.
  - apply Forall_forall. intros p Hp%elem_of_seq. rewrite HP; lia.
Qed.

Lemma nth_seq_take {A} (d : A) (l : list A) (k : nat) :
  (k ≤ length l)%nat → (λ p, nth p l d) <$> seq 0 k = take k l.
Proof.
  intros Hk. apply list_eq. intros p. rewrite list_lookup_fmap.
  destruct (decide (p < k)%nat).
  - rewrite lookup_seq_lt, lookup_take_lt by done. simpl.
    rewrite nth_lookup.
    destruct (lookup_lt_is_Some_2 l p) as [x ->]; [lia|done].
  - rewrite lookup_seq_ge by lia. symmetry. apply lookup_ge_None_2.
    rewrite length_take. lia.
Qed.

Lemma at_row_seq_take (c : list cell) (k : nat) :
  (k ≤ length c)%nat → at_row c <$> seq 0 k = take k c.
Proof. apply nth_seq_take. Qed.

Lemma nrows_take_rows ps df : nrows (take_rows ps df) = length ps.
Proof. unfold nrows, take_rows. simpl. by rewrite length_fmap. Qed.

Lemma row_complete_column df name c p :
  row_complete df p → columns df !! name = Some c → isna (at_row c p) = false.
Proof. intros Hrow Hc. by apply (Hrow name c). Qed.

Lemma ratio_notna a b :
  finite a → finite b → b ≠ zero → isna (a / b - one)%cell = false.
Proof.
  destruct a as [| |p], b as [| |q]; try done. intros _ _ Hq. simpl.
  unfold is_zero. rewrite bool_decide_false; [done|].
  intros ->. by apply Hq.
Qed.

(** C5, as the code has it. The return calculator does not check the horizon:
    with a [midpoint] column it returns, for every [h]; for [h] at or above
    the number of rows every row has a missing return and is dropped, and the
    table comes back empty. Without the column it raises [KeyError]. No other
    exception leaves it. *)
Theorem short_term_returns_any_horizon h df :
  (columns df !! "midpoint" = None →
   compute_short_term_returns h df = (Raise (KeyError "midpoint"), df)) ∧
  (is_Some (columns df !! "midpoint") →
   ∃ out, compute_short_term_returns h df = (Ok (), out) ∧
          (wf df → Z.of_nat (nrows df) ≤ h → nrows out = 0%nat)).
Proof.
  split; [apply returns_no_midpoint|]. intros [mid Hm].
  eexists. split; [by apply returns_run|]. intros Hwf Hh.
  unfold dropna. rewrite nrows_take_rows.
  change (nrows (with_returns h mid df)) with (nrows df).
  rewrite filter_none; [done|].
  apply Forall_forall. intros p [_ Hp]%elem_of_seq Hrow.
  assert (length mid = nrows df) as Hlen by by eapply Hwf.
  eapply (row_complete_column _ (ret_col h)) in Hrow;
    [|simpl; apply lookup_insert_eq].
  rewrite at_row_lookup, ret_vec_end in Hrow by lia. done.
Qed.

Lemma short_term_returns_any_horizon_witness :
  ∃ out, compute_short_term_returns 7 book = (Ok (), out) ∧
         (wf book → Z.of_nat (nrows book) ≤ 7 → nrows out = 0%nat).
Proof.
  apply (proj2 (short_term_returns_any_horizon 7 book)).
  vm_compute. eauto.
Defined.

(** C5 as stated fails: no horizon makes the calculator raise. On the five
    rows of [book] the horizons 5 and 7 give the empty table, 0 gives the five
    rows back with a zero return, and -1 gives four rows. *)
Lemma short_term_returns_any_horizon_counterexample :
  (compute_short_term_returns 5 book).1 = Ok () ∧
  nrows (compute_short_term_returns 5 book).2 = 0%nat ∧
  (compute_short_term_returns 7 book).1 = Ok () ∧
  nrows (compute_short_term_returns 7 book).2 = 0%nat ∧
  (compute_short_term_returns 0 book).1 = Ok () ∧
  columns (compute_short_term_returns 0 book).2 !! "future_ret_0"
    = Some (ints [0; 0; 0; 0; 0]) ∧
  (compute_short_term_returns (-1) book).1 = Ok () ∧
  nrows (compute_short_term_returns (-1) book).2 = 4%nat.
Proof.
  apply (bool_decide_unpack _). vm_compute. exact I.
Qed.

(** The rows that stay are those with a midpoint [h] rows ahead. *)
Lemma returns_row_complete h df mid (p : nat) :
  wf df → complete df → columns df !! "midpoint" = Some mid →
  Forall (λ x, finite x ∧ x ≠ zero) mid →
  1 ≤ h → (p < nrows df)%nat →
  row_complete (with_returns h mid df) p ↔ (p < nrows df - Z.to_nat h)%nat.
Proof.
  intros Hwf Hcomplete Hm Hmid Hh Hp.
  assert (length mid = nrows df) as Hlen by by eapply Hwf.
  split.
  - intros Hrow. destruct (decide (p < nrows df - Z.to_nat h)%nat); [done|].
    eapply (row_complete_column _ (ret_col h)) in Hrow;
      [|simpl; apply lookup_insert_eq].
    rewrite at_row_lookup, ret_vec_end in Hrow by lia. done.
  - intros Hk. unfold row_complete, with_returns. simpl.
    apply map_Forall_insert_2.
    + rewrite at_row_lookup, ret_vec_ahead by lia. simpl.
      rewrite Forall_forall in Hmid.
      destruct (Hmid (at_row mid (p + Z.to_nat h))) as [? ?].
      { eapply list_elem_of_lookup_2, at_row_Some. lia. }
      destruct (Hmid (at_row mid p)) as [? ?].
      { eapply list_elem_of_lookup_2, at_row_Some. lia. }
      by apply ratio_notna.
    + intros name c Hc. pose proof (Hcomplete name c Hc) as Hall.
      rewrite Forall_forall in Hall. apply Hall.
      eapply list_elem_of_lookup_2, at_row_Some. rewrite (Hwf name c Hc). lia.
Qed.

(** C6, as the code has it. For a table of [N] rows with no missing cell in
    any column and with finite, non-zero midpoints, and a horizon
    [1 <= h < N], the calculator returns the first [N - h] rows, the last [h]
    dropped, with [future_ret_h(t) = midpoint(t+h) / midpoint(t) - 1] in each
    of them. *)
Theorem short_term_returns_rows h df mid :
  wf df → complete df →
  columns df !! "midpoint" = Some mid →
  Forall (λ x, finite x ∧ x ≠ zero) mid →
  1 ≤ h < Z.of_nat (nrows df) →
  ∃ out,
    compute_short_term_returns h df = (Ok (), out) ∧
    nrows out = (nrows df - Z.to_nat h)%nat ∧
    index out = take (nrows out) (index df) ∧
    (∀ name, name ≠ ret_col h →
       columns out !! name = take (nrows out) <$> columns df !! name) ∧
    (∀ t : nat, (t < nrows out)%nat →
       loc out (ret_col h) t
       = Some (val df "midpoint" (t + Z.to_nat h) / val df "midpoint" t - one)%cell).
Proof.
  intros Hwf Hcomplete Hm Hmid Hh.
  assert (length mid = nrows df) as Hlen by by eapply Hwf.
  eexists. split; [by apply returns_run|].
  unfold dropna. change (nrows (with_returns h mid df)) with (nrows df).
  rewrite (filter_seq_below _ (nrows df - Z.to_nat h) (nrows df)); [|lia|];
    [|intros p Hp; apply returns_row_complete; try done; lia].
  rewrite nrows_take_rows, length_seq.
  split_and!; [done| | |].
  - unfold take_rows, with_returns. simpl. apply nth_seq_take.
    unfold nrows. lia.
  - intros name Hname. unfold take_rows, with_returns. simpl.
    rewrite lookup_fmap, lookup_insert_ne by done.
    destruct (columns df !! name) as [c|] eqn:Hc; [|done]. simpl. f_equal.
    apply at_row_seq_take. rewrite (Hwf name c Hc). lia.
  - intros t Ht. unfold loc, take_rows, with_returns. simpl.
    rewrite lookup_fmap, lookup_insert_eq. simpl.
    rewrite at_row_seq_take by (rewrite length_ret_vec; lia).
    rewrite lookup_take_lt, ret_vec_ahead by lia.
    by rewrite !(val_column _ _ _ _ Hm).
Qed.

Lemma short_term_returns_rows_witness :
  ∃ out, compute_short_term_returns 1 book = (Ok (), out) ∧
         nrows out = 4%nat ∧
         loc out "future_ret_1" 0
         = Some (val book "midpoint" 1 / val book "midpoint" 0 - one)%cell.
Proof.
  destruct (short_term_returns_rows 1 book (ints [100; 101; 99; 102; 103]))
    as (out & Hrun & Hrows & _ & _ & Hret).
  - apply (bool_decide_unpack _). vm_compute. exact I.
  - apply (bool_decide_unpack _). vm_compute. exact I.
  - vm_compute. reflexivity.
  - apply (bool_decide_unpack _). vm_compute. exact I.
  - vm_compute. split; [discriminate|reflexivity].
  - exists out. split_and!; [done| |].
    + rewrite Hrows. vm_compute. reflexivity.
    + apply (Hret 0%nat). rewrite Hrows. vm_compute. lia.
Defined.

(** C6 as stated fails in two ways. In [flat] no cell is missing, but two
    midpoints are zero: 0/0 is NaN, and with horizon 1 only one of the
    [3 - 1] rows stays. In [noted] the midpoints have no gap, but a column
    that the calculator does not read has one, and [dropna] drops that row
    too: again one row stays. *)
Lemma short_term_returns_rows_counterexample :
  wf flat ∧ complete flat ∧
  (compute_short_term_returns 1 flat).1 = Ok () ∧
  nrows (compute_short_term_returns 1 flat).2 = 1%nat ∧
  nrows (compute_short_term_returns 1 flat).2 ≠ (nrows flat - 1)%nat ∧
  wf noted ∧
  columns noted !! "midpoint" = Some (ints [1; 2; 4]) ∧
  (compute_short_term_returns 1 noted).1 = Ok () ∧
  nrows (compute_short_term_returns 1 noted).2 = 1%nat ∧
  nrows (compute_short_term_returns 1 noted).2 ≠ (nrows noted - 1)%nat.
Proof.
  apply (bool_decide_unpack _). vm_compute. exact I.
Qed.

(** ** load_and_preprocess_data *)

Lemma mapM_length {A B} (f : A → result B) l bs :
  mapM f l = Ok bs → length bs = length l.
Proof.
  revert bs. induction l as [|a l IH]; intros bs H; simpl in H; [by simplify_eq|].
  destruct (f a) as [b|e]; [|done]. simpl in H.
  destruct (mapM f l) as [bs'|e]; [|done]. simplify_eq/=. f_equal. by apply IH.
Qed.

Lemma filter_ext_in {A} (P Q : A → Prop) `{∀ x, Decision (P x), ∀ x, Decision (Q x)}
    (l : list A) :
  (∀ x, x ∈ l → P x ↔ Q x) → filter P l = filter Q l.
Proof.
  induction l as [|x l IH]; intros HPQ; [done|].
  rewrite !filter_cons, IH by (intros; apply HPQ; by right).
  destruct (decide (P x)) as [HP|HP], (decide (Q x)) as [HQ|HQ]; try done;
    exfalso; [apply HQ|apply HP]; by apply (HPQ x); [left|].
Qed.

(** Filtering the positions of a list by what stands there is filtering the
    list. *)
Lemma filter_positions {A} (d : A) (Q : A → Prop) `{∀ x, Decision (Q x)}
    (l : list A) (k : nat) :
  (λ p, nth (p - k) l d) <$> filter (λ p, Q (nth (p - k) l d)) (seq k (length l))
  = filter Q l.
Proof.
  revert k. induction l as [|x l IH]; intros k; [done|]. simpl length. simpl seq.
  rewrite !filter_cons, Nat.sub_diag. change (nth 0 (x :: l) d) with x.
  assert ((λ p, nth (p - k) (x :: l) d) <$>
            filter (λ p, Q (nth (p - k) (x :: l) d)) (seq (S k) (length l))
          = filter Q l) as Htail.
  { rewrite <-(IH (S k)).
    rewrite (filter_ext_in _ (λ p, Q (nth (p - S k) l d))).
    - apply list_fmap_ext. intros i p Hp%list_elem_of_lookup_2.
      apply list_elem_of_filter in Hp as [_ Hp%elem_of_seq].
      replace (p - k)%nat with (S (p - S k)) by lia. done.
    - intros p Hp%elem_of_seq. replace (p - k)%nat with (S (p - S k)) by lia. done. }
  destruct (decide (Q x)); [|exact Htail].
  rewrite fmap_cons, Htail. by rewrite Nat.sub_diag.
Qed.

Lemma Sorted_fmap_inv {A B} (f : A → B) (R : relation B) (l : list A) :
  Sorted R (f <$> l) → Sorted (λ x y, R (f x) (f y)) l.
Proof.
  induction l as [|x l IH]; intros Hs; [constructor|].
  apply Sorted_inv in Hs as [Hs Hhd]. constructor; [by apply IH|].
  destruct l; [constructor|]. constructor. by inv Hhd.
Qed.

Lemma StronglySorted_filter {A} (R : relation A) (P : A → Prop)
    `{∀ x, Decision (P x)} (l : list A) :
  StronglySorted R l → StronglySorted R (filter P l).
Proof.
  induction 1 as [|x l Hs IH Hx]; [constructor|].
  rewrite filter_cons. destruct (decide (P x)); [|done].
  constructor; [done|]. rewrite Forall_forall in Hx |- *.
  intros y [_ Hy]%list_elem_of_filter. by apply Hx.
Qed.

Lemma StronglySorted_key_le_notna (l : list cell) :
  Forall (λ x, isna x = false) l → StronglySorted key_le l →
  StronglySorted Cell.le l.
Proof.
  intros Hna. induction 1 as [|x l Hs IH Hx]; [constructor|].
  apply Forall_cons in Hna as [_ Hna]. constructor; [by apply IH|].
  rewrite Forall_forall in Hx, Hna |- *.
  intros y Hy. apply key_le_notna; auto.
Qed.

Lemma filter_positions_0 {A} (d : A) (Q : A → Prop) `{∀ x, Decision (Q x)}
    (l : list A) :
  (λ p, nth p l d) <$> filter (λ p, Q (nth p l d)) (seq 0 (length l)) = filter Q l.
Proof.
  rewrite <-(filter_positions d Q l 0).
  rewrite (filter_ext_in _ (λ p, Q (nth (p - 0) l d)))
    by (intros p _; by rewrite Nat.sub_0_r).
  apply list_fmap_ext. intros _ p _. by rewrite Nat.sub_0_r.
Qed.

Lemma at_row_take (c : list cell) (qs : list nat) (p : nat) :
  (p < length qs)%nat → at_row (at_row c <$> qs) p = at_row c (nth p qs 0%nat).
Proof.
  intros Hp. rewrite (at_row_lookup (_ <$> _)), list_lookup_fmap, nth_lookup.
  destruct (lookup_lt_is_Some_2 qs p Hp) as [q ->]. done.
Qed.

Lemma row_complete_take_rows df qs (p : nat) :
  (p < length qs)%nat →
  row_complete (reset_index (take_rows qs df)) p ↔ row_complete df (nth p qs 0%nat).
Proof.
  intros Hp. unfold row_complete. simpl. rewrite map_Forall_fmap.
  split; intros H name c Hc; specialize (H name c Hc); simpl in *;
    by rewrite at_row_take in * by done.
Qed.

(** Sorting and then dropping the incomplete rows leaves the complete rows,
    in the order of the sort. *)
Lemma dropna_sorted_rows qs df :
  reset_index (dropna (reset_index (take_rows qs df)))
  = reset_index (take_rows (filter (row_complete df) qs) df).
Proof.
  unfold dropna. rewrite nrows_reset_index, nrows_take_rows.
  rewrite (filter_ext_in _ (λ p, row_complete df (nth p qs 0%nat)))
    by (intros p Hp%elem_of_seq; apply row_complete_take_rows; lia).
  rewrite <-(filter_positions_0 0%nat (row_complete df) qs).
  set (kept := filter _ (seq 0 (length qs))).
  assert (∀ p, p ∈ kept → (p < length qs)%nat) as Hkept.
  { intros p [_ Hp%elem_of_seq]%list_elem_of_filter. lia. }
  unfold reset_index. rewrite !nrows_take_rows, length_fmap. f_equal. simpl.
  rewrite <-map_fmap_compose. apply map_fmap_ext. intros name c _. simpl.
  rewrite <-list_fmap_compose. apply list_fmap_ext.
  intros i p Hp%list_elem_of_lookup_2. simpl. apply at_row_take. by apply Hkept.
Qed.

Lemma load_inv argsort read_csv to_datetime filepath out :
  load_and_preprocess_data argsort read_csv to_datetime filepath = Ok out →
  ∃ csv text times,
    read_csv filepath = Ok csv ∧
    csv_system_time csv = Some text ∧
    mapM to_datetime text = Ok times ∧
    rows_of (parsed csv times)
            (filter (row_complete (parsed csv times)) (argsort times)) out.
Proof.
  unfold load_and_preprocess_data, rbind.
  destruct (read_csv filepath) as [csv|e] eqn:Hcsv; [|done].
  destruct (csv_system_time csv) as [text|] eqn:Htext; [|done].
  destruct (mapM to_datetime text) as [times|e] eqn:Htimes; [|done].
  cbv [run bind setitem_datetime sort_values getitem modify columns].
  rewrite lookup_insert_eq. intros [= <-].
  exists csv, text, times. split_and!; [done..|].
  unfold rows_of. apply dropna_sorted_rows.
Qed.

Lemma load_run argsort read_csv to_datetime filepath csv text times :
  read_csv filepath = Ok csv →
  csv_system_time csv = Some text →
  mapM to_datetime text = Ok times →
  ∃ out, load_and_preprocess_data argsort read_csv to_datetime filepath = Ok out.
Proof.
  intros Hcsv Htext Htimes. unfold load_and_preprocess_data, rbind.
  rewrite Hcsv, Htext, Htimes.
  cbv [run bind setitem_datetime sort_values getitem modify columns].
  rewrite lookup_insert_eq. eauto.
Qed.

Lemma columns_rows_of df ps out name :
  rows_of df ps out →
  columns out !! name = (λ c : list cell, at_row c <$> ps) <$> columns df !! name.
Proof. intros ->. simpl. by rewrite lookup_fmap. Qed.

(** C7, as the code has it. The table the loader returns is sorted ascending
    by the parsed timestamp, is labelled 0, 1, ... and consists of the rows of
    the file that have no missing cell (a timestamp that parses to NaT
    counts), each once. The order of rows of equal timestamp is the one the
    argsort gives: the code sorts with pandas' default [kind], which promises
    none. *)
Theorem load_sorted_complete argsort read_csv to_datetime filepath out :
  argsort_spec argsort →
  load_and_preprocess_data argsort read_csv to_datetime filepath = Ok out →
  ∃ csv text times ps,
    read_csv filepath = Ok csv ∧
    csv_system_time csv = Some text ∧
    mapM to_datetime text = Ok times ∧
    rows_of (parsed csv times) ps out ∧
    ps ≡ₚ filter (row_complete (parsed csv times)) (seq 0 (length times)) ∧
    index out = Z.of_nat <$> seq 0 (nrows out) ∧
    complete out ∧
    ∃ keys, columns out !! "system_time" = Some keys ∧ Sorted Cell.le keys.
Proof.
  intros [Hperm Hsorted] (csv & text & times & Hcsv & Htext & Htimes & Hrows)%load_inv.
  set (P := parsed csv times) in *.
  set (ps := filter (row_complete P) (argsort times)) in *.
  assert (∀ p name c, p ∈ ps → columns P !! name = Some c → isna (at_row c p) = false)
    as Hps.
  { intros p name c [Hp _]%list_elem_of_filter Hc. by apply (Hp name c). }
  exists csv, text, times, ps. split_and!; [done..| | | |].
  - unfold ps. by rewrite Hperm.
  - rewrite Hrows. simpl. by rewrite nrows_reset_index.
  - intros name c Hc. rewrite (columns_rows_of _ _ _ _ Hrows) in Hc.
    destruct (columns P !! name) as [c0|] eqn:Hc0; simplify_eq/=.
    apply Forall_fmap, Forall_forall. intros p Hp. by eapply Hps.
  - exists (at_row times <$> ps). split.
    { rewrite (columns_rows_of _ _ _ _ Hrows). unfold P, parsed. simpl.
      by rewrite lookup_insert_eq. }
    apply StronglySorted_Sorted, StronglySorted_key_le_notna.
    { apply Forall_fmap, Forall_forall. intros p Hp. eapply Hps; [done|].
      unfold P, parsed. simpl. apply lookup_insert_eq. }
    apply (StronglySorted_fmap _ (λ p q, key_le (at_row times p) (at_row times q)));
      [done|].
    apply StronglySorted_filter, Sorted.Sorted_StronglySorted.
    { intros p q r. apply key_le_trans. }
    apply Sorted_fmap_inv, Hsorted.
Qed.

Lemma load_sorted_complete_witness :
  ∃ out, load_and_preprocess_data stable_argsort (λ _, Ok csv_small) clock
           "data/BTC_1min.csv" = Ok out ∧
         complete out ∧
         columns out !! "midpoint" = Some (ints [100; 101]) ∧
         index out = [0; 1].
Proof.
  eexists. split; [vm_compute; reflexivity|].
  edestruct (load_sorted_complete stable_argsort (λ _, Ok csv_small) clock
               "data/BTC_1min.csv")
    as (csv & text & times & ps & _ & _ & _ & _ & _ & _ & Hcomplete & _).
  - exact stable_argsort_spec.
  - vm_compute. reflexivity.
  - split_and!; [exact Hcomplete|vm_compute; reflexivity..].
Defined.

(** C7 as stated fails on rows of equal timestamp: an argsort that meets the
    contract of [sort_values] may give them in any order. The seventeen rows
    of [csv_ties] bear one timestamp; with [reversing_argsort] the loader
    returns them last row first, while a stable sort would keep them. *)
Lemma load_sorted_complete_counterexample :
  argsort_spec reversing_argsort ∧
  (let out := load_and_preprocess_data reversing_argsort (λ _, Ok csv_ties) clock
                "data/BTC_1min.csv" in
   let kept := load_and_preprocess_data stable_argsort (λ _, Ok csv_ties) clock
                 "data/BTC_1min.csv" in
   let times := replicate 17 (of_Z 1617795180) in
   let ps := filter (row_complete (parsed csv_ties times)) (reversing_argsort times) in
   mapM clock (replicate 17 "2021-04-07 11:33:00") = Ok times ∧
   out = Ok (reset_index (take_rows ps (parsed csv_ties times))) ∧
   out = Ok (stamped (frame 17 [("system_time", times);
                                ("midpoint", ints (reverse (seqZ 0 17)))])) ∧
   kept = Ok (stamped (frame 17 [("system_time", times);
                                 ("midpoint", ints (seqZ 0 17))])) ∧
   ¬ ties_in_input_order times ps).
Proof.
  split; [exact reversing_argsort_spec|]. cbv zeta. split_and!.
  - apply (bool_decide_unpack _). vm_compute. exact I.
  - apply (bool_decide_unpack _). vm_compute. exact I.
  - apply (bool_decide_unpack _). vm_compute. exact I.
  - apply (bool_decide_unpack _). vm_compute. exact I.
  - intros H. specialize (H 0%nat 1%nat 16%nat 15%nat).
    assert (16 < 15)%nat; [|lia]. apply H; [lia|vm_compute; reflexivity..].
Qed.

(** ** Tables that the sort leaves in place *)

Lemma cell_lt_trans x y z : Cell.lt x y → Cell.lt y z → Cell.lt x z.
Proof.
  intros [Hxy Hyx] [Hyz Hzy]. split; [by eapply cell_le_trans|].
  intros Hzx. apply Hzy. by eapply cell_le_trans.
Qed.

Lemma cell_lt_key_le x y : Cell.lt x y → key_le x y.
Proof. intros [H _]. by right. Qed.

Lemma cell_lt_not_key_le x y : Cell.lt x y → ¬ key_le y x.
Proof.
  intros [Hxy Hyx] [Hna|Hle]; [|done]. by destruct x.
Qed.

Lemma StronglySorted_lookup {A} (R : relation A) (l : list A) (i j : nat) x y :
  StronglySorted R l → (i < j)%nat → l !! i = Some x → l !! j = Some y → R x y.
Proof.
  intros Hs. revert i j. induction Hs as [|a l Hs IH Ha]; intros i j Hij Hi Hj; [done|].
  destruct j as [|j]; [lia|]. simpl in Hj. destruct i as [|i]; simpl in Hi.
  - simplify_eq. rewrite Forall_forall in Ha. by eapply Ha, list_elem_of_lookup_2.
  - eapply (IH i j); [lia|done..].
Qed.

(** Strictly increasing timestamps leave one sorted order, whatever the
    argsort does with ties. *)
Lemma increasing_in_sort_order argsort df :
  argsort_spec argsort →
  increasing_by "system_time" df → in_sort_order argsort "system_time" df.
Proof.
  intros [Hperm Hsorted]. unfold increasing_by, in_sort_order.
  destruct (columns df !! "system_time") as [keys|]; [|done]. intros Hinc.
  set (R := λ p q : nat, key_le (at_row keys p) (at_row keys q)).
  assert (Transitive R) as HR by (intros p q r; apply key_le_trans).
  assert (StronglySorted Cell.lt keys) as Hstrict.
  { apply Sorted.Sorted_StronglySorted; [|done]. intros x y z. apply cell_lt_trans. }
  apply (StronglySorted_unique_strong R); [| | |apply Hperm].
  - intros p q Hp Hq%elem_of_seq Hpq Hqp.
    rewrite (Hperm keys) in Hp. apply elem_of_seq in Hp.
    destruct (lt_eq_lt_dec p q) as [[Hlt| ->]|Hlt]; [|done|]; exfalso.
    + apply (cell_lt_not_key_le (at_row keys p) (at_row keys q)); [|done].
      eapply (StronglySorted_lookup _ keys p q); [done..|by apply at_row_Some; lia
                                                  |by apply at_row_Some; lia].
    + apply (cell_lt_not_key_le (at_row keys q) (at_row keys p)); [|done].
      eapply (StronglySorted_lookup _ keys q p); [done..|by apply at_row_Some; lia
                                                  |by apply at_row_Some; lia].
  - apply Sorted.Sorted_StronglySorted; [done|].
    apply (Sorted_fmap_inv (at_row keys) key_le), Hsorted.
  - apply Sorted.Sorted_StronglySorted; [done|].
    apply (Sorted_fmap_inv (at_row keys) key_le).
    rewrite at_row_seq. eapply Sorted_fmap with (f := id) in Hinc.
    + by rewrite list_fmap_id in Hinc.
    + intros x y. apply cell_lt_key_le.
Qed.

(** Finite cells give a finite closed form, which is then stored as it is. *)
Lemma ofi_formula_finite df (i t : nat) :
  finite (val df "midpoint" t) → finite (val df "midpoint" (t - 1)) →
  (∀ side, side = "bid" ∨ side = "ask" →
     finite (val df (side +:+ "s_distance_" +:+ pretty i) t) ∧
     finite (val df (side +:+ "s_distance_" +:+ pretty i) (t - 1)) ∧
     finite (val df (side +:+ "s_notional_" +:+ pretty i) t) ∧
     finite (val df (side +:+ "s_notional_" +:+ pretty i) (t - 1))) →
  isna (ofi_formula df i t) = false.
Proof.
  intros Hm Hm' Hside.
  destruct (Hside "bid") as (Hb1 & Hb2 & Hb3 & Hb4); [by left|].
  destruct (Hside "ask") as (Ha1 & Ha2 & Ha3 & Ha4); [by right|].
  unfold ofi_formula, price, size.
  repeat match goal with
         | H : finite ?v |- _ => destruct v; try done; clear H
         end.
Qed.

(** ** What a stable sort would add *)

Lemma key_le_refl x : key_le x x.
Proof.
  destruct x as [|[]|q]; [by left|right; simpl; auto..|right; apply Qcle_refl].
Qed.

Lemma insert_pos_stable keys p ps :
  (∀ q, q ∈ ps → (p < q)%nat) →
  StronglySorted (by_key_then_position keys) ps →
  StronglySorted (by_key_then_position keys) (insert_pos (key_before keys) p ps).
Proof.
  intros Hp Hs. induction Hs as [|q qs Hs IH Hq]; simpl.
  { repeat constructor. }
  unfold key_before at 1. case_bool_decide as Hpq.
  - constructor; [by constructor|]. rewrite Forall_forall in Hq |- *.
    intros r [->|Hr]%elem_of_cons.
    + split; [done|]. intros _. apply Hp. by left.
    + destruct (Hq r Hr) as [Hqr _]. split; [by etrans|].
      intros _. apply Hp. by right.
  - constructor; [apply IH; intros r Hr; apply Hp; by right|].
    rewrite Forall_forall in Hq |- *. intros r Hr.
    rewrite insert_pos_perm in Hr. apply elem_of_cons in Hr as [->|Hr]; [|by apply Hq].
    split; [|done].
    by destruct (key_le_total (at_row keys p) (at_row keys q)).
Qed.

Lemma foldr_insert_pos_stable keys (i n : nat) :
  StronglySorted (by_key_then_position keys)
    (foldr (insert_pos (key_before keys)) [] (seq i n)).
Proof.
  revert i. induction n as [|n IH]; intros i; simpl; [constructor|].
  apply insert_pos_stable; [|apply IH].
  intros q Hq. rewrite foldr_insert_pos_perm in Hq. apply elem_of_seq in Hq. lia.
Qed.

Lemma stable_argsort_ties keys (P : nat → Prop) `{∀ p, Decision (P p)} :
  ties_in_input_order keys (filter P (stable_argsort keys)).
Proof.
  intros a b pa pb Hab Ha Hb Heq.
  assert (by_key_then_position keys pa pb) as [_ Hlt].
  { eapply (StronglySorted_lookup _ _ a b); [|done..].
    apply StronglySorted_filter, foldr_insert_pos_stable. }
  apply Hlt. rewrite Heq. apply key_le_refl.
Qed.

(** With a stable sort ([kind='stable']) the loader would keep rows of equal
    timestamp in the order of the file. *)
Lemma load_stable_keeps_ties read_csv to_datetime filepath out :
  load_and_preprocess_data stable_argsort read_csv to_datetime filepath = Ok out →
  ∃ csv text times ps,
    read_csv filepath = Ok csv ∧
    csv_system_time csv = Some text ∧
    mapM to_datetime text = Ok times ∧
    rows_of (parsed csv times) ps out ∧
    ties_in_input_order times ps.
Proof.
  intros (csv & text & times & Hcsv & Htext & Htimes & Hrows)%load_inv.
  exists csv, text, times, (filter (row_complete (parsed csv times)) (stable_argsort times)).
  split_and!; [done..|]. apply stable_argsort_ties.
Qed.

(** ** The end-to-end example

    On the five rows of [book], with one level: the per-level value is -7 at
    the size jump and 21/2 after it, the sum and the mean over the one level
    agree, and the first one-step return is 101/100 - 1. *)
Example book_end_to_end :
  let steps m :=
    (compute_ofi_for_btc stable_argsort 1;;
     integrate_multi_level_ofi pca_unavailable 1 m;;
     compute_short_term_returns 1) book in
  (steps "sum").1 = Ok () ∧
  steps "sum" = steps "avg" ∧
  columns (steps "sum").2 !! "OFI_level_0" = Some [zero; zero; of_Z (-7); Fin (Q2Qc (21 # 2))] ∧
  columns (steps "sum").2 !! "OFI_aggregated"
    = columns (steps "sum").2 !! "OFI_level_0" ∧
  loc (steps "sum").2 "future_ret_1" 0 = Some (Fin (Q2Qc (1 # 100))) ∧
  nrows (steps "sum").2 = 4%nat.
Proof.
  cbv zeta. apply (bool_decide_unpack _). vm_compute. exact I.
Qed.

(** * Further properties of the scripts *)

(** ** How compute_ofi_for_btc fails *)

Lemma for_each_app {A} (body : A → df_op ()) (l1 l2 : list A) df :
  for_each body (l1 ++ l2) df = (for_each body l1;; for_each body l2) df.
Proof.
  revert df. induction l1 as [|a l1 IH]; intros df; simpl.
  - done.
  - unfold bind. destruct (body a df) as [[[]|e] df1]; [|done]. apply IH.
Qed.

(** One round of the loop stops at the first column it cannot read, before it
    has written anything. *)
Lemma ofi_level_raise level df name :
  first_missing df (level_inputs level) = Some name →
  ofi_level level df = (Raise (KeyError name), df).
Proof.
  unfold first_missing, level_inputs. rewrite !filter_cons, filter_nil. intros H.
  unfold ofi_level, reconstruct_price, reconstruct_size, bind, getitem, ret.
  destruct (columns df !! "midpoint") as [mid|] eqn:Hmid,
    (columns df !! ("bid" +:+ "s_distance_" +:+ pretty level)) as [bd|] eqn:Hbd,
    (columns df !! ("ask" +:+ "s_distance_" +:+ pretty level)) as [ad|] eqn:Had,
    (columns df !! ("bid" +:+ "s_notional_" +:+ pretty level)) as [bn|] eqn:Hbn,
    (columns df !! ("ask" +:+ "s_notional_" +:+ pretty level)) as [an|] eqn:Han;
    repeat case_decide; try congruence; simpl in H; simplify_eq;
    repeat (match goal with Hc : columns _ !! _ = _ |- _ => rewrite Hc end;
            cbn beta iota);
    done.
Qed.


(** The run from the sorted frame on. *)
Lemma compute_ofi_from_engine_order argsort L df :
  is_Some (columns df !! "system_time") →
  compute_ofi_for_btc argsort L df
  = (for_each ofi_level (range L);; fillna zero) (engine_order argsort df).
Proof.
  intros [keys Hk].
  unfold compute_ofi_for_btc, sort_values, engine_order, bind, getitem, modify.
  by rewrite Hk.
Qed.


Lemma level_inputs_not_ofi_col (k j : nat) n :
  n ∈ level_inputs k → n ≠ ofi_col j.
Proof.
  unfold level_inputs. set_unfold.
  intros [->|[->|[->|[->|[->|[->|[]]]]]]]; done.
Qed.



(** X3. When the columns are there for the levels below [k] and one is
    missing for level [k], the call raises [KeyError] for the first column
    that round [k] cannot read, and the caller's frame is left half-way:
    sorted and relabelled, with [OFI_level_j] written for [j < k], its first
    row still NaN since the final [fillna] was not reached, and the other
    columns as the sort left them. *)
Theorem compute_ofi_fails_half_way argsort L df (k : nat) name :
  is_Some (columns df !! "system_time") →
  Z.of_nat k < L →
  (∀ j : nat, (j < k)%nat → first_missing df (level_inputs j) = None) →
  first_missing df (level_inputs k) = Some name →
  ∃ df',
    compute_ofi_for_btc argsort L df = (Raise (KeyError name), df') ∧
    index df' = index (engine_order argsort df) ∧
    (∀ n, (∀ j : nat, (j < k)%nat → n ≠ ofi_col j) →
       columns df' !! n = columns (engine_order argsort df) !! n) ∧
    (∀ j : nat, (j < k)%nat →
       is_Some (columns df' !! ofi_col j) ∧
       ((0 < nrows df')%nat → loc df' (ofi_col j) 0 = Some NaN)).
Proof.
  intros Hk HkL Hbelow Hmiss.
  set (S := engine_order argsort df).
  assert (wf S) as Hwf by by apply wf_engine_order.
  rewrite compute_ofi_from_engine_order by done. fold S.
  replace (range L) with (seq 0 k ++ k :: seq (Datatypes.S k) (Z.to_nat L - Datatypes.S k)).
  2:{ unfold range. rewrite cons_seq, <-seq_app. f_equal. lia. }
  destruct (for_each_ofi_level_run (seq 0 k) S) as [df' Hloop].
  { intros l Hl%elem_of_seq. apply ofi_of_first_missing.
    unfold S. rewrite first_missing_engine_order. apply Hbelow. lia. }
  pose proof (for_each_ofi_level _ _ _ Hloop) as (Hidx & Hother & Hofi).
  exists df'. split_and!.
  - unfold bind at 1. rewrite for_each_app. unfold bind at 1. rewrite Hloop.
    simpl. unfold bind at 1. rewrite (ofi_level_raise k df' name); [done|].
    rewrite <-Hmiss, <-(first_missing_engine_order argsort df). fold S.
    unfold first_missing. f_equal. apply filter_ext_in. intros n Hn.
    rewrite Hother; [done|]. intros j _. by apply level_inputs_not_ofi_col with k.
  - done.
  - intros n Hn. apply Hother. intros j Hj%elem_of_seq. apply Hn. lia.
  - intros j Hj. destruct (Hofi j) as [[v Hv] Hcol]; [apply elem_of_seq; lia|].
    split; [rewrite Hcol, Hv; eauto|]. intros Hrows.
    unfold loc. rewrite Hcol, Hv. simpl.
    apply (ofi_of_first S j); [done..|]. unfold nrows in *. by rewrite <-Hidx.
Qed.

Lemma compute_ofi_fails_half_way_witness :
  ∃ df', compute_ofi_for_btc stable_argsort 2 book_level1_short
         = (Raise (KeyError "asks_notional_1"), df') ∧
         loc df' "OFI_level_0" 0 = Some NaN.
Proof.
  destruct (compute_ofi_fails_half_way stable_argsort 2 book_level1_short 1
              "asks_notional_1") as (df' & Hrun & Hidx & _ & Hofi).
  - vm_compute. eauto.
  - lia.
  - intros j Hj. assert (j = 0%nat) as -> by lia. vm_compute. reflexivity.
  - vm_compute. reflexivity.
  - exists df'. split; [done|]. apply (Hofi 0%nat); [lia|].
    unfold nrows. rewrite Hidx. vm_compute. lia.
Defined.

(** ** Running compute_ofi_for_btc again *)

Lemma compute_ofi_index argsort L df out :
  compute_ofi_for_btc argsort L df = (Ok (), out) →
  index out = Z.of_nat <$> seq 0 (nrows out).
Proof.
  intros Hrun. pose proof (compute_ofi_inv _ _ _ _ Hrun) as (Hk & looped & Hloop & _ & ->).
  apply for_each_ofi_level in Hloop as (Hidx & _ & _).
  unfold nrows. simpl. rewrite Hidx. by apply index_engine_order.
Qed.

Lemma complete_fillable df : complete df → fillable df.
Proof. intros Hc name c Hcol _. by apply (Hc name c). Qed.

Lemma compute_ofi_complete argsort L df out :
  compute_ofi_for_btc argsort L df = (Ok (), out) → complete out.
Proof.
  intros (_ & looped & _ & _ & ->)%compute_ofi_inv. apply complete_filled_zero.
Qed.

(** The table produced is rectangular. *)
Lemma wf_compute_ofi argsort L df out :
  compute_ofi_for_btc argsort L df = (Ok (), out) → wf out.
Proof.
  intros Hrun name c Hc.
  pose proof (compute_ofi_inv _ _ _ _ Hrun) as [Hk _].
  pose proof (wf_engine_order argsort df Hk) as Hwf.
  destruct (decide (name ∈ ofi_col <$> range L)) as [Hin|Hin].
  - apply elem_of_ofi_cols in Hin as (i & Hi & ->).
    destruct (compute_ofi_level _ _ _ _ i Hrun Hi) as (Hrows & v & Hv & Hcol).
    rewrite Hcol in Hc. simplify_eq. rewrite length_fmap, Hrows.
    by eapply ofi_of_length.
  - rewrite (compute_ofi_other _ _ _ _ _ Hrun) in Hc.
    2:{ intros i Hi ->. apply Hin, elem_of_ofi_cols. eauto. }
    destruct (columns (engine_order argsort df) !! name) as [c0|] eqn:Hc0; [|done].
    injection Hc as <-. rewrite length_fmap, (Hwf _ _ Hc0).
    apply compute_ofi_inv in Hrun as (_ & looped & Hloop & _ & ->).
    apply for_each_ofi_level in Hloop as (Hidx & _ & _).
    unfold nrows. simpl. by rewrite Hidx.
Qed.

Lemma DataFrame_eq df1 df2 :
  index df1 = index df2 → columns df1 = columns df2 → datetimes df1 = datetimes df2 →
  df1 = df2.
Proof. destruct df1, df2. simpl. by intros -> -> ->. Qed.

(** On a clean table in strict timestamp order the non-derived columns come
    back as they were. *)
Lemma compute_ofi_keeps_clean argsort L df out name :
  argsort_spec argsort → wf df → complete df → increasing_by "system_time" df →
  compute_ofi_for_btc argsort L df = (Ok (), out) →
  (∀ i : nat, Z.of_nat i < L → name ≠ ofi_col i) →
  columns out !! name = columns df !! name.
Proof.
  intros Hspec Hwf Hcomplete Hinc Hrun Hname.
  destruct (engine_order_in_place argsort df Hwf) as [Hcols _];
    [by apply increasing_in_sort_order|].
  rewrite (compute_ofi_other _ _ _ _ _ Hrun Hname), Hcols.
  destruct (columns df !! name) as [c|] eqn:Hc; [|done]. simpl. f_equal.
  apply fill_complete_column. by eapply Hcomplete.
Qed.

(** X4. On a table with no missing cell and strictly increasing timestamps,
    a second call of [compute_ofi_for_btc] changes nothing: it returns the
    table the first call produced. *)
Theorem compute_ofi_twice argsort L df out :
  argsort_spec argsort → wf df → complete df → increasing_by "system_time" df →
  compute_ofi_for_btc argsort L df = (Ok (), out) →
  compute_ofi_for_btc argsort L out = (Ok (), out).
Proof.
  intros Hspec Hwf Hcomplete Hinc Hrun.
  pose proof (compute_ofi_inv _ _ _ _ Hrun) as [Hk _].
  assert (∀ name, (∀ i : nat, Z.of_nat i < L → name ≠ ofi_col i) →
            columns out !! name = columns df !! name) as Hkeep
    by (intros; by eapply compute_ofi_keeps_clean).
  destruct (engine_order_in_place argsort df Hwf) as [Hcols _];
    [by apply increasing_in_sort_order|].
  assert (∀ l, ofi_of out l = ofi_of (engine_order argsort df) l) as Hsame.
  { intros l. apply ofi_of_same_inputs. intros name Hname.
    rewrite Hcols. apply Hkeep. intros i _. apply Hname. }
  pose proof (wf_compute_ofi _ _ _ _ Hrun) as Hwf'.
  pose proof (compute_ofi_complete _ _ _ _ Hrun) as Hcomplete'.
  assert (columns out !! "system_time" = columns df !! "system_time") as Htime
    by (apply Hkeep; intros i _; apply ofi_col_not_time).
  assert (increasing_by "system_time" out) as Hinc'
    by (unfold increasing_by in *; by rewrite Htime).
  assert (engine_order argsort out = out) as Hfix.
  { destruct (engine_order_in_place argsort out Hwf') as [Hcols' Hrows'];
      [by apply increasing_in_sort_order|].
    assert (index (engine_order argsort out) = index out) as Hidx.
    { rewrite index_engine_order by (rewrite Htime; done).
      rewrite Hrows'. symmetry. by eapply compute_ofi_index. }
    apply DataFrame_eq; [done..|]. apply datetimes_engine_order. }
  rewrite compute_ofi_from_engine_order by (rewrite Htime; done). rewrite Hfix.
  destruct (for_each_ofi_level_run (range L) out) as [looped Hloop].
  { intros l Hl%elem_of_range. rewrite Hsame.
    destruct (compute_ofi_level _ _ _ _ l Hrun Hl) as (_ & v & -> & _). eauto. }
  unfold bind, fillna. rewrite Hloop.
  rewrite decide_True.
  2:{ apply (fillable_looped _ _ _ Hloop). intros name c _ _ Hc.
      by apply (Hcomplete' name c). }
  f_equal.
  pose proof (for_each_ofi_level_datetimes _ _ _ Hloop) as Hdt.
  apply for_each_ofi_level in Hloop as (Hidx & Hother & Hofi).
  apply DataFrame_eq; [done| |]; simpl.
  2:{ rewrite Hdt, (datetimes_compute_ofi _ _ _ _ Hrun).
      by rewrite difference_difference_l_L, union_idemp_L. }
  apply map_eq. intros name. rewrite lookup_fmap.
  destruct (decide (name ∈ ofi_col <$> range L)) as [Hin|Hin].
  - apply elem_of_ofi_cols in Hin as (i & Hi & ->).
    destruct (Hofi i) as [_ ->]; [by apply elem_of_range|]. rewrite Hsame.
    destruct (compute_ofi_level _ _ _ _ i Hrun Hi) as (_ & v & -> & ->). done.
  - rewrite Hother.
    2:{ intros l Hl%elem_of_range ->. apply Hin, elem_of_ofi_cols. eauto. }
    destruct (columns out !! name) as [c|] eqn:Hc; [|done]. simpl. f_equal.
    apply fill_complete_column. by apply (Hcomplete' name c).
Qed.

Lemma compute_ofi_twice_witness :
  compute_ofi_for_btc stable_argsort 1 (compute_ofi_for_btc stable_argsort 1 book).2
  = (Ok (), (compute_ofi_for_btc stable_argsort 1 book).2).
Proof.
  apply (compute_ofi_twice stable_argsort 1 book).
  - exact stable_argsort_spec.
  - apply (bool_decide_unpack _). vm_compute. exact I.
  - apply (bool_decide_unpack _). vm_compute. exact I.
  - apply (bool_decide_unpack _). vm_compute. exact I.
  - vm_compute. reflexivity.
Defined.

(** ** Calls of integrate_multi_level_ofi, one after another *)

Lemma integrate_ok_form pca L m df out :
  integrate_multi_level_ofi pca L m df = (Ok (), out) →
  ∃ s, out = mkDF (index df) (<["OFI_aggregated" := s]> (columns df))
                  (datetimes df ∖ {["OFI_aggregated"]}).
Proof.
  intros Hrun. pose proof (integrate_ok_columns _ _ _ _ _ Hrun) as Hcols.
  rewrite integrate_with_columns in Hrun by done. cbv zeta in Hrun.
  repeat case_bool_decide; try destruct (pca _); simplify_eq; eauto.
Qed.

Lemma ofi_columns_after_integrate L df s :
  column_or_empty (mkDF (index df) (<["OFI_aggregated" := s]> (columns df))
                        (datetimes df ∖ {["OFI_aggregated"]}))
    <$> (ofi_col <$> range L)
  = column_or_empty df <$> (ofi_col <$> range L).
Proof.
  apply list_fmap_ext. intros _ name (i & -> & _)%list_elem_of_lookup_2%list_elem_of_fmap.
  unfold column_or_empty. simpl.
  by rewrite lookup_insert_ne by apply ofi_col_not_aggregated.
Qed.

(** X5. The last call decides: after a call of [integrate_multi_level_ofi]
    that returned, a further call with any method ends as it would have on
    the table before the first call, and when it returns it leaves the same
    table. [OFI_aggregated] is overwritten, never accumulated. *)
Theorem integrate_last_call_wins pca L m1 m2 df mid :
  integrate_multi_level_ofi pca L m1 df = (Ok (), mid) →
  (integrate_multi_level_ofi pca L m2 mid).1
  = (integrate_multi_level_ofi pca L m2 df).1 ∧
  ((integrate_multi_level_ofi pca L m2 df).1 = Ok () →
   integrate_multi_level_ofi pca L m2 mid = integrate_multi_level_ofi pca L m2 df).
Proof.
  intros Hrun. pose proof (integrate_ok_columns _ _ _ _ _ Hrun) as Hcols.
  apply integrate_ok_form in Hrun as [s ->].
  rewrite (integrate_with_columns pca L m2 df) by done.
  rewrite (integrate_with_columns pca L m2 (mkDF _ _ _)).
  2:{ intros i Hi. simpl.
      rewrite lookup_insert_ne by apply ofi_col_not_aggregated. by apply Hcols. }
  cbv zeta. rewrite ofi_columns_after_integrate.
  change (nrows (mkDF (index df) _ _)) with (nrows df). simpl.
  repeat case_bool_decide; try destruct (pca _); simpl;
    rewrite ?insert_insert_eq, ?difference_difference_l_L, ?union_idemp_L; split; done.
Qed.

Lemma integrate_last_call_wins_witness :
  integrate_multi_level_ofi pca_unavailable 2 "avg"
    (integrate_multi_level_ofi pca_unavailable 2 "sum" levels).2
  = integrate_multi_level_ofi pca_unavailable 2 "avg" levels.
Proof.
  refine (proj2 (integrate_last_call_wins pca_unavailable 2 "sum" "avg" levels _ _) _).
  - vm_compute. reflexivity.
  - vm_compute. reflexivity.
Defined.

Lemma val_notna df name c (t : nat) :
  wf df → complete df → columns df !! name = Some c → (t < nrows df)%nat →
  isna (val df name t) = false.
Proof.
  intros Hwf Hcomplete Hc Ht. rewrite (val_column _ _ _ _ Hc).
  pose proof (Hcomplete name c Hc) as Hall. rewrite Forall_forall in Hall.
  apply Hall. eapply list_elem_of_lookup_2, at_row_Some. by rewrite (Hwf name c Hc).
Qed.

(** X6. On the table that [compute_ofi_for_btc] produced for [max_levels]
    levels, [integrate_multi_level_ofi] with the same [max_levels] returns
    for ['sum'] and for ['avg'], and [OFI_aggregated] is the plain sum, or
    mean, over all levels at every row: the final [fillna] left nothing for
    pandas to skip. *)
Theorem compute_then_integrate argsort pca L df out (t : nat) :
  compute_ofi_for_btc argsort L df = (Ok (), out) →
  (t < nrows out)%nat →
  ∃ by_sum by_avg,
    integrate_multi_level_ofi pca L "sum" out = (Ok (), by_sum) ∧
    integrate_multi_level_ofi pca L "avg" out = (Ok (), by_avg) ∧
    loc by_sum "OFI_aggregated" t = Some (total (ofi_row out L t)) ∧
    loc by_avg "OFI_aggregated" t = Some (mean (ofi_row out L t)).
Proof.
  intros Hrun Ht.
  assert (∀ i : nat, Z.of_nat i < L → is_Some (columns out !! ofi_col i)) as Hcols.
  { intros i Hi. destruct (compute_ofi_level _ _ _ _ i Hrun Hi) as (_ & v & _ & ->).
    eauto. }
  assert (present (ofi_row out L t) = ofi_row out L t) as Hall.
  { apply present_all, Forall_fmap, Forall_forall. intros i Hi%elem_of_range. simpl.
    destruct (Hcols i Hi) as [c Hc].
    eapply val_notna; [by eapply wf_compute_ofi|by eapply compute_ofi_complete|done..]. }
  rewrite !integrate_with_columns by done. cbv zeta.
  rewrite !(bool_decide_false ("sum" = "PCA")), !(bool_decide_true ("sum" = "sum")),
    !(bool_decide_false ("avg" = "PCA")), !(bool_decide_false ("avg" = "sum")),
    !(bool_decide_true ("avg" = "avg")) by done.
  do 2 eexists. split_and!; [done..| |]; unfold loc; simpl;
    rewrite lookup_insert_eq; simpl.
  - by rewrite sum_axis1_lookup, row_values_ofi, nansum_present, Hall.
  - by rewrite mean_axis1_lookup, row_values_ofi, nanmean_present, Hall.
Qed.

Lemma compute_then_integrate_witness :
  ∃ by_sum by_avg,
    integrate_multi_level_ofi pca_unavailable 1 "sum"
      (compute_ofi_for_btc stable_argsort 1 book).2 = (Ok (), by_sum) ∧
    integrate_multi_level_ofi pca_unavailable 1 "avg"
      (compute_ofi_for_btc stable_argsort 1 book).2 = (Ok (), by_avg) ∧
    loc by_sum "OFI_aggregated" 2
    = Some (total (ofi_row (compute_ofi_for_btc stable_argsort 1 book).2 1 2)) ∧
    loc by_avg "OFI_aggregated" 2
    = Some (mean (ofi_row (compute_ofi_for_btc stable_argsort 1 book).2 1 2)).
Proof.
  apply (compute_then_integrate stable_argsort pca_unavailable 1 book _ 2).
  - vm_compute. reflexivity.
  - vm_compute. lia.
Defined.

(** ** What compute_short_term_returns keeps *)

Lemma complete_dropna df : complete (dropna df).
Proof.
  intros name c Hc. unfold dropna, take_rows in Hc. simpl in Hc.
  apply lookup_fmap_Some in Hc as (c0 & <- & Hc0).
  apply Forall_fmap, Forall_forall. intros p [Hp _]%list_elem_of_filter.
  by apply (Hp name c0).
Qed.

Lemma returns_inv h df out :
  compute_short_term_returns h df = (Ok (), out) →
  ∃ mid, columns df !! "midpoint" = Some mid ∧ out = dropna (with_returns h mid df).
Proof.
  destruct (columns df !! "midpoint") as [mid|] eqn:Hm.
  - rewrite (returns_run _ _ _ Hm). intros [= <-]. eauto.
  - by rewrite (returns_no_midpoint _ _ Hm).
Qed.

(** X8. Whatever the horizon, the table that [compute_short_term_returns]
    returns has no missing cell, and it is made of rows of the input in their
    order, under their old labels (no [reset_index] here), with the cells of
    every other column as they were. *)
Theorem short_term_returns_keeps_rows h df out :
  compute_short_term_returns h df = (Ok (), out) →
  complete out ∧
  ∃ ps, ps `sublist_of` seq 0 (nrows df) ∧
        index out = (λ p, nth p (index df) 0) <$> ps ∧
        ∀ name, name ≠ ret_col h →
          columns out !! name
          = (λ c : list cell, at_row c <$> ps) <$> columns df !! name.
Proof.
  intros (mid & Hm & ->)%returns_inv. split; [apply complete_dropna|].
  exists (filter (row_complete (with_returns h mid df)) (seq 0 (nrows df))).
  split_and!; [apply sublist_filter; apply _|done|].
  intros name Hname. unfold dropna, take_rows, with_returns. simpl.
  by rewrite lookup_fmap, lookup_insert_ne.
Qed.

Lemma short_term_returns_keeps_rows_witness :
  complete (compute_short_term_returns 1 noted).2.
Proof.
  refine (proj1 (short_term_returns_keeps_rows 1 noted _ _)).
  vm_compute. reflexivity.
Defined.

(** ** Horizons that look nowhere, or back *)

Lemma take_rows_all df : wf df → take_rows (seq 0 (nrows df)) df = df.
Proof.
  intros Hwf. apply DataFrame_eq; simpl; [| |done].
  - unfold nrows. rewrite nth_seq_take by done. apply firstn_all.
  - apply map_eq. intros name. rewrite lookup_fmap.
    destruct (columns df !! name) as [c|] eqn:Hc; [|done]. simpl. f_equal.
    rewrite <-(Hwf name c Hc). apply at_row_seq.
Qed.

Lemma ratio_self x : finite x → x ≠ zero → (x / x - one)%cell = zero.
Proof.
  destruct x as [| |p]; try done. intros _ Hp.
  assert (p ≠ 0%Qc) as Hp' by (intros ->; by apply Hp).
  unfold Cell.sub. simpl. unfold is_zero. rewrite bool_decide_false by done.
  simpl. unfold zero. f_equal. unfold Qcdiv.
  rewrite Qcmult_inv_r by done. apply Qcplus_opp_r.
Qed.

Lemma wf_with_returns h mid df :
  wf df → columns df !! "midpoint" = Some mid → wf (with_returns h mid df).
Proof.
  intros Hwf Hm. unfold wf, with_returns. simpl. apply map_Forall_insert_2.
  - rewrite length_ret_vec. by eapply Hwf.
  - exact Hwf.
Qed.

(** X9. With horizon 0 on a table with no missing cell and finite, non-zero
    midpoints, no row is dropped and [future_ret_0] is 0 in every row: the
    table comes back with that one column more. *)
Theorem short_term_returns_horizon_zero df mid :
  wf df → complete df →
  columns df !! "midpoint" = Some mid →
  Forall (λ x, finite x ∧ x ≠ zero) mid →
  compute_short_term_returns 0 df
  = (Ok (), mkDF (index df)
              (<["future_ret_0" := replicate (nrows df) zero]> (columns df))
              (datetimes df ∖ {["future_ret_0"]})).
Proof.
  intros Hwf Hcomplete Hm Hmid.
  assert (length mid = nrows df) as Hlen by by eapply Hwf.
  assert (ret_vec 0 mid = replicate (nrows df) zero) as Hret.
  { apply list_eq. intros p. destruct (decide (p < nrows df)%nat) as [Hp|Hp].
    - rewrite ret_vec_ahead, lookup_replicate_2 by lia. f_equal.
      simpl. rewrite Nat.add_0_r.
      rewrite Forall_forall in Hmid.
      destruct (Hmid (at_row mid p)) as [? ?];
        [eapply list_elem_of_lookup_2, at_row_Some; lia|].
      by apply ratio_self.
    - rewrite !lookup_ge_None_2; [done|rewrite length_replicate; lia|
                                  rewrite length_ret_vec; lia]. }
  rewrite (returns_run _ _ _ Hm). f_equal. unfold dropna.
  change (nrows (with_returns 0 mid df)) with (nrows df).
  rewrite filter_all.
  - change (nrows df) with (nrows (with_returns 0 mid df)).
    rewrite take_rows_all by by apply wf_with_returns.
    unfold with_returns. by rewrite Hret.
  - apply Forall_forall. intros p [_ Hp]%elem_of_seq.
    unfold row_complete, with_returns. simpl. apply map_Forall_insert_2.
    + rewrite Hret, at_row_lookup, lookup_replicate_2 by lia. done.
    + intros name c Hc. pose proof (Hcomplete name c Hc) as Hall.
      rewrite Forall_forall in Hall. apply Hall.
      eapply list_elem_of_lookup_2, at_row_Some. rewrite (Hwf name c Hc). lia.
Qed.

Lemma short_term_returns_horizon_zero_witness :
  compute_short_term_returns 0 book
  = (Ok (), mkDF (index book)
              (<["future_ret_0" := replicate (nrows book) zero]> (columns book))
              (datetimes book ∖ {["future_ret_0"]})).
Proof.
  apply (short_term_returns_horizon_zero book (ints [100; 101; 99; 102; 103])).
  - apply (bool_decide_unpack _). vm_compute. exact I.
  - apply (bool_decide_unpack _). vm_compute. exact I.
  - vm_compute. reflexivity.
  - apply (bool_decide_unpack _). vm_compute. exact I.
Defined.

Lemma shift_behind (s : list cell) (k p : nat) :
  (k ≤ p)%nat → (p < length s)%nat →
  shift (Z.of_nat k) s !! p = s !! (p - k)%nat.
Proof.
  intros Hk Hp. unfold shift. rewrite bool_decide_true by lia.
  replace (Nat.min (Z.to_nat (Z.of_nat k)) (length s)) with k by lia.
  rewrite lookup_app_r by (rewrite length_replicate; lia).
  rewrite length_replicate, lookup_take_lt by lia. done.
Qed.

Lemma shift_behind_start (s : list cell) (k p : nat) :
  (p < k)%nat → (p < length s)%nat → shift (Z.of_nat k) s !! p = Some NaN.
Proof.
  intros Hk Hp. unfold shift. rewrite bool_decide_true by lia.
  rewrite lookup_app_l by (rewrite length_replicate; lia).
  apply lookup_replicate_2. lia.
Qed.

Lemma ret_vec_behind (k : nat) mid (p : nat) :
  (k ≤ p)%nat → (p < length mid)%nat →
  ret_vec (- Z.of_nat k) mid !! p
  = Some (at_row mid (p - k) / at_row mid p - one)%cell.
Proof.
  intros Hk Hp. unfold ret_vec, ssubc, sdiv.
  rewrite list_lookup_fmap, lookup_zip_with, Z.opp_involutive.
  rewrite shift_behind by done.
  rewrite (at_row_Some mid (p - k)) by lia.
  rewrite (at_row_Some mid p) by lia. done.
Qed.

Lemma ret_vec_behind_start (k : nat) mid (p : nat) :
  (p < k)%nat → (p < length mid)%nat →
  ret_vec (- Z.of_nat k) mid !! p = Some NaN.
Proof.
  intros Hk Hp. unfold ret_vec, ssubc, sdiv.
  rewrite list_lookup_fmap, lookup_zip_with, Z.opp_involutive.
  rewrite shift_behind_start by done. simpl.
  destruct (lookup_lt_is_Some_2 mid p Hp) as [x ->]. done.
Qed.

Lemma filter_seq_from (P : nat → Prop) `{∀ p, Decision (P p)} (k n : nat) :
  (k ≤ n)%nat → (∀ p, (p < n)%nat → P p ↔ (k ≤ p)%nat) →
  filter P (seq 0 n) = seq k (n - k).
Proof.
  intros Hk HP. replace n with (k + (n - k))%nat at 1 by lia.
  rewrite seq_app, filter_app. simpl.
  rewrite filter_none, filter_all.
  - done.
  - apply Forall_forall. intros p Hp%elem_of_seq. rewrite HP; lia.
  - apply Forall_forall. intros p Hp%elem_of_seq. rewrite HP; lia.
Qed.

Lemma nth_seq_drop {A} (d : A) (l : list A) (k : nat) :
  (λ p, nth p l d) <$> seq k (length l - k) = drop k l.
Proof.
  apply list_eq. intros p. rewrite list_lookup_fmap, lookup_drop.
  destruct (decide (p < length l - k)%nat).
  - rewrite lookup_seq_lt by done. simpl. rewrite nth_lookup.
    destruct (lookup_lt_is_Some_2 l (k + p)) as [x ->]; [lia|done].
  - rewrite lookup_seq_ge by lia. symmetry. apply lookup_ge_None_2. lia.
Qed.

(** X10. A negative horizon is taken as it is and looks back: for
    [h = -k] with [1 <= k < N], on a table with no missing cell and finite,
    non-zero midpoints, the first [k] rows are dropped, the other [N - k]
    keep their labels, and the column [future_ret_-k] holds
    [midpoint(t-k) / midpoint(t) - 1]. *)
Theorem short_term_returns_backward (k : nat) df mid :
  wf df → complete df →
  columns df !! "midpoint" = Some mid →
  Forall (λ x, finite x ∧ x ≠ zero) mid →
  (1 ≤ k < nrows df)%nat →
  ∃ out,
    compute_short_term_returns (- Z.of_nat k) df = (Ok (), out) ∧
    nrows out = (nrows df - k)%nat ∧
    index out = drop k (index df) ∧
    (∀ name, name ≠ ret_col (- Z.of_nat k) →
       columns out !! name = drop k <$> columns df !! name) ∧
    (∀ t : nat, (t < nrows out)%nat →
       loc out (ret_col (- Z.of_nat k)) t
       = Some (val df "midpoint" t / val df "midpoint" (t + k) - one)%cell).
Proof.
  intros Hwf Hcomplete Hm Hmid Hk.
  assert (length mid = nrows df) as Hlen by by eapply Hwf.
  set (h := - Z.of_nat k).
  assert (∀ p, (p < nrows df)%nat →
            row_complete (with_returns h mid df) p ↔ (k ≤ p)%nat) as Hrows.
  { intros p Hp. split.
    - intros Hrow. destruct (decide (k ≤ p)%nat); [done|].
      eapply (row_complete_column _ (ret_col h)) in Hrow;
        [|simpl; apply lookup_insert_eq].
      unfold h in Hrow. rewrite at_row_lookup, ret_vec_behind_start in Hrow by lia.
      done.
    - intros Hkp. unfold row_complete, with_returns. simpl.
      apply map_Forall_insert_2.
      + unfold h. rewrite at_row_lookup, ret_vec_behind by lia. simpl.
        rewrite Forall_forall in Hmid.
        destruct (Hmid (at_row mid (p - k))) as [? ?];
          [eapply list_elem_of_lookup_2, at_row_Some; lia|].
        destruct (Hmid (at_row mid p)) as [? ?];
          [eapply list_elem_of_lookup_2, at_row_Some; lia|].
        by apply ratio_notna.
      + intros name c Hc. pose proof (Hcomplete name c Hc) as Hall.
        rewrite Forall_forall in Hall. apply Hall.
        eapply list_elem_of_lookup_2, at_row_Some. rewrite (Hwf name c Hc). lia. }
  eexists. split; [by apply returns_run|].
  unfold dropna. change (nrows (with_returns h mid df)) with (nrows df).
  rewrite (filter_seq_from _ k (nrows df)) by (done || lia).
  rewrite nrows_take_rows, length_seq.
  split_and!; [done| | |].
  - unfold take_rows, with_returns. simpl. apply nth_seq_drop.
  - intros name Hname. unfold take_rows, with_returns. simpl.
    rewrite lookup_fmap, lookup_insert_ne by done.
    destruct (columns df !! name) as [c|] eqn:Hc; [|done]. simpl. f_equal.
    rewrite <-(Hwf name c Hc). apply nth_seq_drop.
  - intros t Ht. unfold loc, take_rows, with_returns. simpl.
    rewrite lookup_fmap, lookup_insert_eq. simpl.
    rewrite <-Hlen, <-(length_ret_vec h mid).
    unfold at_row at 1. rewrite (nth_seq_drop NaN (ret_vec h mid) k).
    rewrite lookup_drop. unfold h. rewrite ret_vec_behind by lia.
    rewrite !(val_column _ _ _ _ Hm). do 3 f_equal; [f_equal; lia|f_equal; lia].
Qed.

Lemma short_term_returns_backward_witness :
  ∃ out, compute_short_term_returns (-1) book = (Ok (), out) ∧
         nrows out = 4%nat ∧ index out = [1; 2; 3; 4].
Proof.
  destruct (short_term_returns_backward 1 book (ints [100; 101; 99; 102; 103]))
    as (out & Hrun & Hrows & Hidx & _).
  - apply (bool_decide_unpack _). vm_compute. exact I.
  - apply (bool_decide_unpack _). vm_compute. exact I.
  - vm_compute. reflexivity.
  - apply (bool_decide_unpack _). vm_compute. exact I.
  - vm_compute. lia.
  - exists out. split_and!; [exact Hrun|rewrite Hrows; reflexivity|rewrite Hidx; reflexivity].
Defined.

(** ** How load_and_preprocess_data ends *)

Lemma mapM_ok {A B} (f : A → result B) (l : list A) :
  (∀ a, a ∈ l → ∃ b, f a = Ok b) → ∃ bs, mapM f l = Ok bs.
Proof.
  induction l as [|a l IH]; intros Hall; simpl; [eauto|].
  destruct (Hall a) as [b ->]; [left|]. simpl.
  destruct IH as [bs ->]; [intros; apply Hall; by right|]. simpl. eauto.
Qed.

Lemma mapM_raise {A B} (f : A → result B) (l : list A) (i : nat) a e :
  l !! i = Some a → f a = Raise e →
  (∀ (j : nat) a', (j < i)%nat → l !! j = Some a' → ∃ b, f a' = Ok b) →
  mapM f l = Raise e.
Proof.
  revert i. induction l as [|a0 l IH]; intros i Hi He Hbefore; [done|].
  destruct i as [|i]; simpl in *.
  - simplify_eq. by rewrite He.
  - destruct (Hbefore 0%nat a0) as [b ->]; [lia|done|]. simpl.
    rewrite (IH i); [done..|].
    intros j a' Hj Ha'. apply (Hbefore (S j)); [lia|done].
Qed.

(** X11. The loader ends in one of four ways: with the exception of
    [read_csv]; with [KeyError] when the file has no [system_time] column;
    with the exception [to_datetime] raises on the first entry it cannot
    parse; and otherwise with a table. A missing value never makes it raise,
    not even when every row has one. *)
Theorem load_outcome argsort read_csv to_datetime filepath :
  (∀ e, read_csv filepath = Raise e →
     load_and_preprocess_data argsort read_csv to_datetime filepath = Raise e) ∧
  (∀ csv, read_csv filepath = Ok csv → csv_system_time csv = None →
     load_and_preprocess_data argsort read_csv to_datetime filepath
     = Raise (KeyError "system_time")) ∧
  (∀ csv text (i : nat) s e,
     read_csv filepath = Ok csv → csv_system_time csv = Some text →
     text !! i = Some s → to_datetime s = Raise e →
     (∀ (j : nat) s', (j < i)%nat → text !! j = Some s' → ∃ c, to_datetime s' = Ok c) →
     load_and_preprocess_data argsort read_csv to_datetime filepath = Raise e) ∧
  (∀ csv text,
     read_csv filepath = Ok csv → csv_system_time csv = Some text →
     (∀ s, s ∈ text → ∃ c, to_datetime s = Ok c) →
     ∃ out, load_and_preprocess_data argsort read_csv to_datetime filepath = Ok out).
Proof.
  split_and!.
  - intros e He. unfold load_and_preprocess_data. by rewrite He.
  - intros csv Hcsv Htext. unfold load_and_preprocess_data. rewrite Hcsv. simpl.
    by rewrite Htext.
  - intros csv text i s e Hcsv Htext Hi He Hbefore.
    unfold load_and_preprocess_data. rewrite Hcsv. simpl. rewrite Htext. simpl.
    by rewrite (mapM_raise to_datetime text i s e).
  - intros csv text Hcsv Htext Hall.
    destruct (mapM_ok to_datetime text Hall) as [times Htimes].
    by eapply load_run.
Qed.

Lemma load_outcome_witness :
  load_and_preprocess_data stable_argsort (λ _, Ok csv_bad) clock "data/BTC_1min.csv"
  = Raise (ValueError "Unknown datetime string format") ∧
  load_and_preprocess_data stable_argsort (λ _, Ok csv_untimed) clock "data/BTC_1min.csv"
  = Raise (KeyError "system_time").
Proof.
  split.
  - refine (proj1 (proj2 (proj2 (load_outcome stable_argsort (λ _, Ok csv_bad) clock
              "data/BTC_1min.csv"))) csv_bad _ 1%nat "yesterday" _ _ _ _ _ _);
      [reflexivity..|].
    intros j s' Hj Hs'. assert (j = 0%nat) as -> by lia.
    vm_compute in Hs'. injection Hs' as <-. vm_compute. eauto.
  - by apply (proj1 (proj2 (load_outcome stable_argsort (λ _, Ok csv_untimed) clock
              "data/BTC_1min.csv")) csv_untimed).
Defined.

(** ** The loader and the engine, one after the other *)

(** What the engine finds in a loaded table. *)
Lemma load_output argsort read_csv to_datetime filepath df :
  argsort_spec argsort →
  load_and_preprocess_data argsort read_csv to_datetime filepath = Ok df →
  wf df ∧ complete df ∧ sorted_by "system_time" df ∧
  index df = Z.of_nat <$> seq 0 (nrows df).
Proof.
  intros [Hperm Hsorted] (csv & text & times & _ & _ & _ & Hrows)%load_inv.
  set (P := parsed csv times) in *.
  set (ps := filter (row_complete P) (argsort times)) in *.
  assert (columns df !! "system_time" = Some (at_row times <$> ps)) as Htime.
  { rewrite (columns_rows_of _ _ _ _ Hrows). unfold P, parsed. simpl.
    by rewrite lookup_insert_eq. }
  split_and!.
  - rewrite Hrows. apply wf_reset_index, wf_take_rows.
  - intros name c Hc. rewrite (columns_rows_of _ _ _ _ Hrows) in Hc.
    destruct (columns P !! name) as [c0|] eqn:Hc0; simplify_eq/=.
    apply Forall_fmap, Forall_forall. intros p [Hp _]%list_elem_of_filter.
    by apply (Hp name c0).
  - unfold sorted_by. rewrite Htime.
    apply StronglySorted_Sorted.
    apply (StronglySorted_fmap _ (λ p q, key_le (at_row times p) (at_row times q)));
      [done|].
    apply StronglySorted_filter, Sorted.Sorted_StronglySorted.
    { intros p q r. apply key_le_trans. }
    apply (Sorted_fmap_inv (at_row times) key_le), Hsorted.
  - rewrite Hrows. simpl. by rewrite nrows_reset_index.
Qed.

(** Sorted keys, none missing and no two equal, go up strictly. *)
Lemma sorted_nodup_increasing (keys : list cell) :
  Forall (λ x, isna x = false) keys → NoDup keys →
  Sorted key_le keys → Sorted Cell.lt keys.
Proof.
  intros Hna Hnodup Hs. apply StronglySorted_Sorted.
  apply Sorted.Sorted_StronglySorted in Hs; [|apply key_le_trans].
  induction Hs as [|x l Hs IH Hx]; [constructor|].
  apply Forall_cons in Hna as [Hx0 Hna]. apply NoDup_cons in Hnodup as [Hnotin Hnodup].
  constructor; [by apply IH|].
  rewrite Forall_forall in Hx, Hna |- *. intros y Hy.
  assert (Cell.le x y) as Hxy by (apply key_le_notna; auto).
  split; [done|]. intros Hyx. apply Hnotin.
  by rewrite (cell_le_antisym x y Hxy Hyx).
Qed.

(** X12. On a table that the loader returned and in which no two rows have
    the same timestamp, [compute_ofi_for_btc] only writes its [OFI_level_i]
    columns: its own sort, [reset_index] and [fillna] find nothing to do, the
    labels and every other column stay as loaded. *)
Theorem load_then_compute_ofi argsort read_csv to_datetime filepath L df out keys :
  argsort_spec argsort →
  load_and_preprocess_data argsort read_csv to_datetime filepath = Ok df →
  columns df !! "system_time" = Some keys → NoDup keys →
  compute_ofi_for_btc argsort L df = (Ok (), out) →
  index out = index df ∧
  ∀ name, (∀ i : nat, Z.of_nat i < L → name ≠ ofi_col i) →
    columns out !! name = columns df !! name.
Proof.
  intros Hspec Hload Hkeys Hnodup Hrun.
  destruct (load_output _ _ _ _ _ Hspec Hload) as (Hwf & Hcomplete & Hsorted & Hidx).
  assert (increasing_by "system_time" df) as Hinc.
  { unfold increasing_by, sorted_by in *. rewrite Hkeys in *.
    apply sorted_nodup_increasing; [by eapply Hcomplete|done..]. }
  split.
  - rewrite (compute_ofi_index _ _ _ _ Hrun), Hidx. do 2 f_equal.
    apply compute_ofi_inv in Hrun as (_ & looped & Hloop & _ & ->).
    apply for_each_ofi_level in Hloop as (Hidx' & _ & _).
    destruct (engine_order_in_place argsort df Hwf) as [_ Hrows];
      [by apply increasing_in_sort_order|].
    rewrite <-Hrows. unfold nrows. simpl. by rewrite Hidx'.
  - intros name Hname. by eapply compute_ofi_keeps_clean.
Qed.

Lemma load_then_compute_ofi_witness :
  ∃ df out,
    load_and_preprocess_data stable_argsort (λ _, Ok csv_five) clock
      "data/BTC_1min.csv" = Ok df ∧
    compute_ofi_for_btc stable_argsort 5 df = (Ok (), out) ∧
    index out = index df ∧
    columns out !! "midpoint" = columns df !! "midpoint".
Proof.
  eexists _, _. split; [vm_compute; reflexivity|]. split; [vm_compute; reflexivity|].
  edestruct (load_then_compute_ofi stable_argsort (λ _, Ok csv_five) clock
               "data/BTC_1min.csv" 5) as [Hidx Hcols].
  - exact stable_argsort_spec.
  - vm_compute. reflexivity.
  - vm_compute. reflexivity.
  - apply (bool_decide_unpack _). vm_compute. exact I.
  - vm_compute. reflexivity.
  - split; [exact Hidx|]. apply Hcols. intros i _. discriminate.
Defined.

(** ** main.py *)

Lemma run_inv {A} (m : df_op A) df out :
  run m df = Ok out → ∃ a, m df = (Ok a, out).
Proof. unfold run. destruct (m df) as [[a|e] df']; [|done]. intros [= <-]. eauto. Qed.

Lemma bind_inv {A B} (m : df_op A) (k : A → df_op B) df b out :
  bind m k df = (Ok b, out) → ∃ a mid, m df = (Ok a, mid) ∧ k a mid = (Ok b, out).
Proof. unfold bind. destruct (m df) as [[a|e] mid]; [|done]. eauto. Qed.

(** X13. When [main] gets as far as the regression, the table it hands over
    is rectangular and has no missing cell, and it holds the two columns the
    regression reads, [OFI_aggregated] and [future_ret_1], beside the five
    [OFI_level_i]. *)
Theorem main_ready_for_regression argsort pca read_csv to_datetime out :
  main argsort pca read_csv to_datetime = Ok out →
  wf out ∧ complete out ∧
  is_Some (columns out !! "OFI_aggregated") ∧
  is_Some (columns out !! "future_ret_1") ∧
  ∀ i : nat, (i < 5)%nat → is_Some (columns out !! ofi_col i).
Proof.
  unfold main, rbind.
  destruct (load_and_preprocess_data _ _ _ _) as [df|e]; [|done].
  intros [[] Hrun]%run_inv.
  apply bind_inv in Hrun as ([] & d1 & Hofi & Hrun).
  apply bind_inv in Hrun as ([] & d2 & Hagg & Hret).
  apply returns_inv in Hret as (mid & Hm & ->).
  pose proof (integrate_ok_columns _ _ _ _ _ Hagg) as Hcols.
  apply integrate_ok_form in Hagg as [s ->].
  split_and!.
  - apply wf_take_rows.
  - apply complete_dropna.
  - unfold dropna, take_rows, with_returns. simpl.
    rewrite lookup_fmap, lookup_insert_ne, lookup_insert_eq by done. eauto.
  - unfold dropna, take_rows, with_returns. simpl.
    change (ret_col 1) with "future_ret_1". rewrite lookup_fmap, lookup_insert_eq. eauto.
  - intros i Hi. unfold dropna, take_rows, with_returns. simpl.
    rewrite lookup_fmap, !lookup_insert_ne by done.
    destruct (Hcols i) as [c ->]; [lia|]. eauto.
Qed.

Lemma main_ready_for_regression_witness :
  ∃ out, main stable_argsort pca_unavailable (λ _, Ok csv_five) clock = Ok out ∧
         complete out ∧ nrows out = 2%nat.
Proof.
  eexists. split; [vm_compute; reflexivity|].
  edestruct (main_ready_for_regression stable_argsort pca_unavailable
               (λ _, Ok csv_five) clock) as (_ & Hcomplete & _).
  - vm_compute. reflexivity.
  - split; [exact Hcomplete|vm_compute; reflexivity].
Defined.

(** ** The order of the rows handed to compute_ofi_for_btc *)

Lemma at_row_take_list (c : list cell) (ps qs : list nat) :
  (∀ q, q ∈ qs → (q < length ps)%nat) →
  at_row (at_row c <$> ps) <$> qs = at_row c <$> ((λ q, nth q ps 0%nat) <$> qs).
Proof.
  intros Hqs. rewrite <-list_fmap_compose. apply list_fmap_ext.
  intros i q Hq%list_elem_of_lookup_2. simpl. apply at_row_take. by apply Hqs.
Qed.

(** With timestamps that are all there and all different, the sorted order is
    one, whatever the order the rows come in. *)
Lemma argsort_of_permuted argsort keys ps :
  argsort_spec argsort →
  Forall (λ x, isna x = false) keys → NoDup keys →
  ps ≡ₚ seq 0 (length keys) →
  (λ q, nth q ps 0%nat) <$> argsort (at_row keys <$> ps) = argsort keys.
Proof.
  intros [Hperm Hsorted] Hna Hnodup Hps.
  set (keys' := at_row keys <$> ps).
  set (R := λ p q : nat, key_le (at_row keys p) (at_row keys q)).
  assert (Transitive R) as HR by (intros p q r; apply key_le_trans).
  assert (∀ q, q ∈ argsort keys' → (q < length ps)%nat) as Hin.
  { intros q Hq. rewrite (Hperm keys') in Hq. apply elem_of_seq in Hq.
    unfold keys' in Hq. rewrite length_fmap in Hq. lia. }
  apply (StronglySorted_unique_strong R).
  - intros p q Hp Hq Hpq Hqp.
    assert (p < length keys)%nat as Hp'.
    { apply list_elem_of_fmap in Hp as (q' & -> & Hq').
      assert (∀ x, x ∈ ps → (x < length keys)%nat) as Hbound.
      { intros x Hx. rewrite Hps in Hx. apply elem_of_seq in Hx. lia. }
      apply Hbound, list_elem_of_In, nth_In. by apply Hin. }
    assert (q < length keys)%nat as Hq'.
    { rewrite (Hperm keys) in Hq. apply elem_of_seq in Hq. lia. }
    rewrite Forall_forall in Hna.
    assert (at_row keys p = at_row keys q) as Heq.
    { apply cell_le_antisym; apply key_le_notna; try done;
        apply Hna; eapply list_elem_of_lookup_2, at_row_Some; done. }
    eapply NoDup_lookup; [done|by apply at_row_Some|]. rewrite Heq. by apply at_row_Some.
  - apply Sorted.Sorted_StronglySorted; [done|].
    apply (Sorted_fmap_inv (at_row keys) key_le).
    rewrite <-at_row_take_list by done. apply Hsorted.
  - apply Sorted.Sorted_StronglySorted; [done|].
    apply (Sorted_fmap_inv (at_row keys) key_le), Hsorted.
  - rewrite (Hperm keys'), (Hperm keys). unfold keys'. rewrite length_fmap.
    rewrite (nth_seq_take 0%nat ps (length ps)) by done. rewrite firstn_all. done.
Qed.

(** X14. The order in which the rows come does not matter to
    [compute_ofi_for_btc] when the timestamps are all there and all
    different: on the rows of a table taken in any other order it ends as on
    the table itself, with the same result and the same table. This is what
    its first line, the sort, is there for. *)
Theorem compute_ofi_row_order argsort L df keys ps :
  argsort_spec argsort → wf df →
  columns df !! "system_time" = Some keys →
  Forall (λ x, isna x = false) keys → NoDup keys →
  ps ≡ₚ seq 0 (nrows df) →
  compute_ofi_for_btc argsort L (take_rows ps df) = compute_ofi_for_btc argsort L df.
Proof.
  intros Hspec Hwf Hk Hna Hnodup Hps.
  assert (length keys = nrows df) as Hlen by by eapply Hwf.
  assert (columns (take_rows ps df) !! "system_time" = Some (at_row keys <$> ps))
    as Hk' by (simpl; by rewrite lookup_fmap, Hk).
  rewrite !compute_ofi_from_engine_order by (rewrite ?Hk, ?Hk'; done).
  f_equal. unfold engine_order. rewrite Hk, Hk'.
  pose proof (argsort_of_permuted argsort keys ps Hspec Hna Hnodup) as Hsame.
  rewrite Hlen in Hsame. specialize (Hsame Hps).
  destruct Hspec as [Hperm _].
  assert (∀ q, q ∈ argsort (at_row keys <$> ps) → (q < length ps)%nat) as Hin.
  { intros q Hq. rewrite (Hperm _) in Hq. apply elem_of_seq in Hq.
    rewrite length_fmap in Hq. lia. }
  apply DataFrame_eq; [| |done].
  - simpl. rewrite !nrows_take_rows. do 2 f_equal.
    rewrite <-Hsame. by rewrite length_fmap.
  - simpl. rewrite <-map_fmap_compose. apply map_fmap_ext. intros name c _. simpl.
    rewrite at_row_take_list by done. by rewrite Hsame.
Qed.

Lemma compute_ofi_row_order_witness :
  compute_ofi_for_btc stable_argsort 1 (take_rows [3; 0; 4; 1; 2]%nat book)
  = compute_ofi_for_btc stable_argsort 1 book.
Proof.
  apply (compute_ofi_row_order stable_argsort 1 book (ints [1; 2; 3; 4; 5])).
  - exact stable_argsort_spec.
  - apply (bool_decide_unpack _). vm_compute. exact I.
  - vm_compute. reflexivity.
  - apply (bool_decide_unpack _). vm_compute. exact I.
  - apply (bool_decide_unpack _). vm_compute. exact I.
  - apply (bool_decide_unpack _). vm_compute. exact I.
Defined.
